(** * Hypno: the speech playback scheduler and the Lyria synthesis engine

    A shallow embedding of the two stateful cores of the repository:

    - [LiveSession]: the [onmessage] handler of the live voice session
      (components/LiveSession.tsx), which schedules decoded speech chunks on
      the time cursor [nextStartTimeRef] and flushes them on interruption;
      the handler is asynchronous, and is modelled in the two parts its
      [await] cuts it into, with the calls that are suspended there;
    - [Noise]: the noise-buffer loop at the top of [LyriaEngine.play];
    - [Lyria]: the [LyriaEngine] class (utils/musicEngine.ts) over a model of
      the Web Audio node graph it builds.

    JavaScript numbers are modelled as exact rationals ([Q]); the rounding
    of doubles, and of the 32-bit samples of an audio buffer, is not
    modelled.  Equations written with [=] hold between the very expressions
    the code computes; those written with [==] hold between their values. *)

From Stdlib Require Import QArith Qminmax Qabs Lia Lqa.
From stdpp Require Import base list strings pretty.
From Stdlib Require Strings.Byte.

(* ===================================================================== *)
(** ** The live session: chunk scheduling and interruption               *)
(* ===================================================================== *)

Module LiveSession.

(** [useState<'idle' | 'listening' | 'speaking'>('idle')] *)
Inductive ModelState := idle | listening | speaking.

#[global] Instance ModelState_eq_dec : EqDecision ModelState.
Proof. solve_decision. Defined.

(** An [AudioBufferSourceNode] is identified by its creation rank on the
    output context: the k-th call of [ctx.createBufferSource()] returns
    source [k]. The analyser created next to it carries the same rank. *)
Definition SourceId := nat.

(** The part of an [AudioBuffer] the handler reads. *)
Record AudioBuffer := { duration : Q }.

(** The two fields of a [LiveServerMessage] the handler reads:
    [message.serverContent?.modelTurn?.parts?.[0]?.inlineData?.data]
    ([None] when any link of the optional chain is missing) and
    [message.serverContent?.interrupted]. *)
Record LiveServerMessage := {
  inlineData : option string;
  interrupted : bool
}.

(** The refs and React state of the component that [onmessage] and
    [onended] touch, together with the calls they make on the nodes of the
    output context ([source.start(t)], [src.stop()]) and on the console. *)
Record Session := {
  audioContextRef : bool;          (* audioContextRef.current is non-null *)
  nextStartTimeRef : Q;            (* the playback cursor *)
  sourcesRef : list SourceId;      (* Set<AudioBufferSourceNode>, insertion order *)
  analyserRef : option SourceId;
  modelState : ModelState;
  currentVolume : Q;
  isConnected : bool;
  created : nat;                   (* buffer sources created so far *)
  startCalls : list (SourceId * Q);  (* source.start(t), oldest first *)
  stopCalls : list SourceId;         (* src.stop(), oldest first *)
  console : list string
}.

(** The component as mounted, with the output context set by
    [connectToLiveAPI] before the session is opened. *)
Definition mounted : Session :=
  {| audioContextRef := true; nextStartTimeRef := 0; sourcesRef := [];
     analyserRef := None; modelState := idle; currentVolume := 0;
     isConnected := false; created := 0; startCalls := []; stopCalls := [];
     console := [] |}.

(** How a call of the async handler settles. *)
Inductive Outcome := Fulfilled | Rejected.

(** [Set.prototype.add]: no effect on a member, else appended. *)
Definition set_add (h : SourceId) (l : list SourceId) : list SourceId :=
  if decide (h ∈ l) then l else l ++ [h].

(** [Set.prototype.delete] *)
Definition set_delete (h : SourceId) (l : list SourceId) : list SourceId :=
  filter (λ x, x ≠ h) l.

(** JavaScript truthiness of a string: [if (audioData)] fails on [""]. *)
Definition truthy (s : string) : bool :=
  match s with EmptyString => false | _ => true end.

Section Handler.

(** [decodeAudioData(base64ToUint8Array(audioData), ctx)] from
    utils/audioUtils, a file that is not part of the sources at hand: the
    decoder is a parameter. [None] stands for a payload on which either call
    throws or the returned promise rejects. *)
Variable decodeAudioData : string → option AudioBuffer.

(** Lines 147-153: the part of the audio branch that runs before the
    [await]. [now] is [ctx.currentTime]. *)
Definition schedule_head (now : Q) (s : Session) : Session :=
  {| audioContextRef := audioContextRef s;
     nextStartTimeRef := Qmax (nextStartTimeRef s) now;
     sourcesRef := sourcesRef s;
     analyserRef := analyserRef s;
     modelState := speaking;
     currentVolume := currentVolume s;
     isConnected := isConnected s;
     created := created s;
     startCalls := startCalls s;
     stopCalls := stopCalls s;
     console := console s |}.

(** Lines 160-182: the continuation after the [await], with the decoded
    buffer. The cursor is read again here, not carried over the [await]. *)
Definition schedule_tail (audioBuffer : AudioBuffer) (s : Session) : Session :=
  let source := created s in
  {| audioContextRef := audioContextRef s;
     nextStartTimeRef := (nextStartTimeRef s + duration audioBuffer)%Q;
     sourcesRef := set_add source (sourcesRef s);
     analyserRef := Some source;
     modelState := modelState s;
     currentVolume := currentVolume s;
     isConnected := isConnected s;
     created := S source;
     startCalls := startCalls s ++ [(source, nextStartTimeRef s)];
     stopCalls := stopCalls s;
     console := console s |}.

(** Lines 186-199: the interruption branch. [now] is
    [audioContextRef.current.currentTime]. Every source of the set has been
    started, so no [src.stop()] throws into the empty [catch]. *)
Definition interrupt (now : Q) (s : Session) : Session :=
  {| audioContextRef := audioContextRef s;
     nextStartTimeRef := if audioContextRef s then now else nextStartTimeRef s;
     sourcesRef := [];
     analyserRef := analyserRef s;
     modelState := listening;
     currentVolume := currentVolume s;
     isConnected := isConnected s;
     created := created s;
     startCalls := startCalls s;
     stopCalls := stopCalls s ++ sourcesRef s;
     console := console s ++ ["Interrupted"] |}.

Definition handle_interrupted (msg : LiveServerMessage) (now : Q)
    (s : Session) : Session :=
  if interrupted msg then interrupt now s else s.

(** State change made by [setModelState('speaking')] alone. *)
Definition set_speaking (s : Session) : Session :=
  {| audioContextRef := audioContextRef s;
     nextStartTimeRef := nextStartTimeRef s;
     sourcesRef := sourcesRef s;
     analyserRef := analyserRef s;
     modelState := speaking;
     currentVolume := currentVolume s;
     isConnected := isConnected s;
     created := created s;
     startCalls := startCalls s;
     stopCalls := stopCalls s;
     console := console s |}.

(** How far a call of the async handler gets before it gives the thread
    back: to its end, or to the [await] of line 155, where it is suspended
    with the payload it is decoding. *)
Inductive Progress :=
  | Settled (o : Outcome)
  | Awaiting (audioData : string).

(** [onmessage] from its start to the [await] of line 155, or to its end
    when it does not get there.  [t0] is the clock read on line 153, which
    only a call that gets to the [await] reads; [t1] the clock read on
    line 196, which a call that ends here reads in the interruption
    branch. *)
Definition onmessage_begin (msg : LiveServerMessage) (t0 t1 : Q)
    (s : Session) : Session * Progress :=
  match inlineData msg with
  | Some audioData =>
      if truthy audioData then
        if audioContextRef s then (schedule_head t0 s, Awaiting audioData)
        else (set_speaking s, Settled Fulfilled)      (* if (!ctx) return; *)
      else (handle_interrupted msg t1 s, Settled Fulfilled)
  | None => (handle_interrupted msg t1 s, Settled Fulfilled)
  end.

(** The rest of a suspended call, run when the decode has settled, on the
    state of that moment: the continuation of lines 160-182 and the
    interruption branch when the promise was fulfilled, nothing when it was
    rejected.  [t1] is the clock read on line 196. *)
Definition onmessage_resume (msg : LiveServerMessage) (audioData : string)
    (t1 : Q) (s : Session) : Session * Outcome :=
  match decodeAudioData audioData with
  | Some audioBuffer =>
      (handle_interrupted msg t1 (schedule_tail audioBuffer s), Fulfilled)
  | None => (s, Rejected)
  end.

(** One call of [onmessage] during which nothing else runs: the decode
    settles before any other event is handled.  The general case, with
    other handlers running while the call is suspended, is [act] below. *)
Definition onmessage (msg : LiveServerMessage) (t0 t1 : Q) (s : Session)
    : Session * Outcome :=
  match onmessage_begin msg t0 t1 s with
  | (s1, Awaiting audioData) => onmessage_resume msg audioData t1 s1
  | (s1, Settled o) => (s1, o)
  end.

(** [source.onended], lines 175-182. *)
Definition onended (source : SourceId) (s : Session) : Session :=
  let rest := set_delete source (sourcesRef s) in
  {| audioContextRef := audioContextRef s;
     nextStartTimeRef := nextStartTimeRef s;
     sourcesRef := rest;
     analyserRef := match rest with [] => None | _ => analyserRef s end;
     modelState := match rest with [] => listening | _ => modelState s end;
     currentVolume := match rest with [] => 0 | _ => currentVolume s end;
     isConnected := isConnected s;
     created := created s;
     startCalls := startCalls s;
     stopCalls := stopCalls s;
     console := console s |}.

(** [onopen], lines 121-124 (the capture set-up does not touch the
    fields modelled here). *)
Definition onopen (s : Session) : Session :=
  {| audioContextRef := audioContextRef s;
     nextStartTimeRef := nextStartTimeRef s;
     sourcesRef := sourcesRef s;
     analyserRef := analyserRef s;
     modelState := listening;
     currentVolume := currentVolume s;
     isConnected := true;
     created := created s;
     startCalls := startCalls s;
     stopCalls := stopCalls s;
     console := console s ++ ["Session opened"] |}.

(** What the session receives, when every call of [onmessage] runs to its
    end before anything else is handled: [Message msg t0 t1] is a whole
    call. *)
Inductive Event :=
  | Open
  | Message (msg : LiveServerMessage) (t0 t1 : Q)
  | Ended (source : SourceId).

Definition step (s : Session) (e : Event) : Session :=
  match e with
  | Open => onopen s
  | Message msg t0 t1 => fst (onmessage msg t0 t1 s)
  | Ended source => onended source s
  end.

Definition run (evs : list Event) (s : Session) : Session :=
  foldl step s evs.

(** *** Calls suspended at the [await]

    While a call of [onmessage] waits for its decode, other messages arrive
    and earlier sources end: their handlers run on the same refs.  A
    suspended call keeps its message and the payload being decoded;
    [arrival] is the clock reading it took on line 153, which its
    continuation does not read again and which is kept here for the
    statements only. *)
Record Call := {
  message : LiveServerMessage;
  payload : string;
  arrival : Q
}.

(** The session and the calls of [onmessage] that are suspended, oldest
    first. *)
Record Live := {
  session : Session;
  awaiting : list Call
}.

Definition idling (s : Session) : Live := {| session := s; awaiting := [] |}.

(** What happens, one at a time: the session opens; a message arrives and
    its handler runs to its [await] or to its end; the decode awaited by
    the suspended call number [k] settles and that call runs to its end
    (decodes may settle in any order); the playback of a source ends.
    [now] is the reading of [currentTime] in the handler that runs. *)
Inductive Action :=
  | Opens
  | Arrives (msg : LiveServerMessage) (now : Q)
  | Settles (k : nat) (now : Q)
  | Completes (source : SourceId).

Definition act (l : Live) (a : Action) : Live :=
  match a with
  | Opens => {| session := onopen (session l); awaiting := awaiting l |}
  | Arrives msg now =>
      match onmessage_begin msg now now (session l) with
      | (s, Awaiting audioData) =>
          {| session := s;
             awaiting := awaiting l ++ [{| message := msg;
                                           payload := audioData;
                                           arrival := now |}] |}
      | (s, Settled _) => {| session := s; awaiting := awaiting l |}
      end
  | Settles k now =>
      match awaiting l !! k with
      | Some c =>
          {| session :=
               fst (onmessage_resume (message c) (payload c) now (session l));
             awaiting := delete k (awaiting l) |}
      | None => l
      end
  | Completes source =>
      {| session := onended source (session l); awaiting := awaiting l |}
  end.

Definition exec (acts : list Action) (l : Live) : Live :=
  foldl act l acts.

(** The actions of a trace of [run]: each message is handled with nothing
    in between its arrival and the settling of its decode. *)
Definition in_turn (e : Event) : list Action :=
  match e with
  | Open => [Opens]
  | Message msg t0 t1 =>
      match inlineData msg with
      | Some audioData =>
          if truthy audioData then [Arrives msg t0; Settles 0 t1]
          else [Arrives msg t1]
      | None => [Arrives msg t1]
      end
  | Ended source => [Completes source]
  end.





(** A message that carries one speech chunk and no interruption flag. *)
Definition chunk (data : string) : LiveServerMessage :=
  {| inlineData := Some data; interrupted := false |}.

(** A message that carries the interruption flag alone. *)
Definition barge_in : LiveServerMessage :=
  {| inlineData := None; interrupted := true |}.

(** The engine state shown to the user is derived from the set. *)
Definition derived (s : Session) : Prop :=
  (modelState s = speaking ↔ sourcesRef s ≠ []) ∧
  (modelState s = listening ↔ sourcesRef s = []).

(** The start times a gapless schedule gives to chunks of durations [ds]
    when the first one starts at [start]. *)
Fixpoint gapless_starts (start : Q) (ds : list Q) : list Q :=
  match ds with
  | [] => []
  | d :: ds' => start :: gapless_starts (start + d)%Q ds'
  end.

(** Chunks given as (arrival time, payload): each arrives no later than
    the scheduled end [ending] of its predecessor. *)
Fixpoint arrive_in_time (ending : Q) (cs : list (Q * string)) : Prop :=
  match cs with
  | [] => True
  | (t, data) :: cs' =>
      (t <= ending)%Q ∧
      match decodeAudioData data with
      | Some b => arrive_in_time (ending + duration b)%Q cs'
      | None => False
      end
  end.

(** Events of an utterance that is not interrupted: messages that carry a
    speech chunk and no interruption flag, and completions of playback. *)
Definition speech (e : Event) : Prop :=
  match e with
  | Open => False
  | Message msg _ _ =>
      interrupted msg = false ∧
      ∃ data, inlineData msg = Some data ∧ truthy data = true
  | Ended _ => True
  end.

(** The chunks of a trace, each with the clock reading at its arrival. *)
Fixpoint chunks_of (evs : list Event) : list (Q * string) :=
  match evs with
  | [] => []
  | Message msg t0 _ :: evs' =>
      match inlineData msg with
      | Some data => (t0, data) :: chunks_of evs'
      | None => chunks_of evs'
      end
  | _ :: evs' => chunks_of evs'
  end.

(** The durations of the decodable chunks of a list. *)
Fixpoint durations (cs : list (Q * string)) : list Q :=
  match cs with
  | [] => []
  | (_, data) :: cs' =>
      match decodeAudioData data with
      | Some b => duration b :: durations cs'
      | None => durations cs'
      end
  end.

(** Events whose chunk, if any, decodes. *)
Definition decodes (e : Event) : Prop :=
  match e with
  | Message msg _ _ =>
      match inlineData msg with
      | Some data => is_Some (decodeAudioData data)
      | None => True
      end
  | _ => True
  end.

End Handler.

(** The clock of the output context does not run backwards: the readings
    the handlers of a trace take are in order, from [clock] on. *)
Fixpoint timely (clock : Q) (acts : list Action) : Prop :=
  match acts with
  | [] => True
  | Arrives _ now :: acts' | Settles _ now :: acts' =>
      (clock <= now)%Q ∧ timely now acts'
  | _ :: acts' => timely clock acts'
  end.

(** An instance of the decoder for the examples (the decoder of
    utils/audioUtils is not in the sources): 16-bit samples at 24 kHz, one
    sample per two characters of payload; a payload with an odd number of
    characters does not decode. *)
Definition pcm24k (data : string) : option AudioBuffer :=
  let n := String.length data in
  if Nat.even n then Some {| duration := Z.of_nat (n / 2) # 24000 |} else None.

End LiveSession.

(* ===================================================================== *)
(** ** The noise buffer of the ambient pad                               *)
(* ===================================================================== *)

Module Noise.

(** [const white = Math.random() * 2 - 1;] for a draw [r] of
    [Math.random()]. *)
Definition white (r : Q) : Q := (r * 2 - 1)%Q.

(** One turn of the inner loop, lines 49-52, from the running value
    [lastOut] and the draw [r]: the sample left in [data[i]] and the new
    [lastOut]. *)
Definition sample (lastOut r : Q) : Q * Q :=
  let out := ((lastOut + (0.02 * white r)) / 1.02)%Q in
  ((out * 3.5)%Q, out).

Section Source.

(** The random source: [rnd k] is the result of the k-th call of
    [Math.random()]. *)
Variable rnd : nat → Q.

(** The inner loop, lines 47-53: [n] samples of one channel, the first
    drawn by call number [k], starting from the running value [lastOut].
    Returns the channel data and the running value after the loop. *)
Fixpoint fill_channel (n k : nat) (lastOut : Q) : list Q * Q :=
  match n with
  | O => ([], lastOut)
  | S n' =>
      let '(x, out) := sample lastOut (rnd k) in
      let '(xs, final) := fill_channel n' (S k) out in
      (x :: xs, final)
  end.

(** The outer loop, lines 45-54, over [channels] channels of [bufferSize]
    samples each. [lastOut] is declared before this loop (line 43) and is
    not reset between channels. *)
Fixpoint fill_channels (channels bufferSize k : nat) (lastOut : Q)
    : list (list Q) :=
  match channels with
  | O => []
  | S c =>
      let '(data, final) := fill_channel bufferSize k lastOut in
      data :: fill_channels c bufferSize (k + bufferSize) final
  end.

(** Lines 41-54: [createBuffer(2, bufferSize, sampleRate)], [lastOut = 0],
    and the two loops. *)
Definition noise_buffer (bufferSize : nat) : list (list Q) :=
  fill_channels 2 bufferSize 0 0.

(** The running value after [k + 1] draws of one uninterrupted run of the
    recurrence from 0. *)
Fixpoint out_seq (k : nat) : Q :=
  match k with
  | O => snd (sample 0 (rnd 0))
  | S k' => snd (sample (out_seq k') (rnd k))
  end.

(** The running value [lastOut] just before call number [k]. *)
Definition running_value (k : nat) : Q :=
  match k with O => 0 | S k' => out_seq k' end.

(** The buffer in the words of the specification: each channel runs the
    recurrence on its own, from a running value of its own that starts
    at 0. *)
Definition independent_buffer (bufferSize : nat) : list (list Q) :=
  [ fst (fill_channel bufferSize 0 0);
    fst (fill_channel bufferSize bufferSize 0) ].

End Source.

(** The first sample of the right channel of a buffer. *)
Definition right_head (buffer : list (list Q)) : option Q :=
  buffer !! 1 ≫= (λ ch, ch !! 0).

(** A random source that returns 1/2 at every call but call number [j],
    where it returns 3/4. *)
Definition spike (j : nat) (k : nat) : Q :=
  if Nat.eqb k j then 3 # 4 else 1 # 2.

End Noise.

(* ===================================================================== *)
(** ** The Lyria engine over a model of the Web Audio graph              *)
(* ===================================================================== *)

Module Lyria.

(** *** The audio graph *)

Inductive OscillatorType := sine | square.
Inductive BiquadFilterType := lowpass.
Inductive ContextState := suspended | running | closed.

(** Life of an [AudioScheduledSourceNode]. *)
Inductive Playback := unscheduled | started (when : Q) | stopped.

Inductive ParamName := gain_param | frequency_param.

(** The far end of a [connect]: an input of a node or one of its
    [AudioParam]s. *)
Inductive Port :=
  | node_input (node : nat) (input : nat)
  | node_param (node : nat) (name : ParamName).

Record Connection := { from : nat; output : nat; to : Port }.

(** An [AudioBuffer] filled by the noise loop: its samples are those of
    [Noise.noise_buffer] on the calls of [Math.random()] from number
    [firstDraw] on. *)
Record AudioBuffer := {
  numberOfChannels : nat;
  frames : N;
  bufferRate : N;
  firstDraw : N
}.

Inductive NodeKind :=
  | Destination
  | Gain (value : Q) (target : option (Q * Q * Q))
      (* gain.value, and the last gain.setTargetAtTime(target, start, tc) *)
  | Oscillator (type : OscillatorType) (frequency : Q) (state : Playback)
  | BufferSource (buffer : option AudioBuffer) (loop : bool) (state : Playback)
  | BiquadFilter (type : BiquadFilterType) (frequency : Q) (q : Q)
  | ChannelMerger (inputs : nat).

(** A node and the context that created it. Nodes are named by their rank
    of creation. *)
Record Node := { context : nat; kind : NodeKind }.

Record Context := {
  state : ContextState;
  sampleRate : N;
  destination : nat
}.

(** Everything outside the engine object: contexts, nodes and connections
    made so far, the number of calls of [Math.random()] so far, and the
    sample rate of the output device. *)
Record World := {
  contexts : list Context;
  nodes : list Node;
  connections : list Connection;
  randomCalls : N;
  deviceRate : N
}.

(** *** The engine object *)

Record Engine := {
  ctx : option nat;
  masterGain : option nat;
  binauralLeft : option nat;
  binauralRight : option nat;
  isochronicOsc : option nat;
  isochronicLFO : option nat;
  ambientSource : option nat;
  isPlaying : bool
}.

Record State := { this : Engine; world : World }.

Record Config := {
  binauralFreq : Q;
  baseFreq : Q;
  isochronic : bool;
  theme : string
}.

Inductive Exception := TypeError | InvalidStateError.

(** A call returns or throws; either way the state it leaves is kept. *)
Inductive Result (A : Type) :=
  | Return (a : A) (s : State)
  | Throw (e : Exception) (s : State).
Arguments Return {A} a s.
Arguments Throw {A} e s.

Definition M (A : Type) : Type := State → Result A.

Definition ret {A} (a : A) : M A := λ s, Return a s.

Definition bind {A B} (m : M A) (k : A → M B) : M B :=
  λ s, match m s with
       | Return a s' => k a s'
       | Throw e s' => Throw e s'
       end.

Definition throw {A} (e : Exception) : M A := λ s, Throw e s.

(** [try { m } catch(e) {}] *)
Definition try_ (m : M unit) : M unit :=
  λ s, match m s with
       | Return _ s' => Return tt s'
       | Throw _ s' => Return tt s'
       end.

#[global] Instance M_ret : MRet M := @ret.
#[global] Instance M_bind : MBind M := λ A B k m, bind m k.

Definition get {A} (field : Engine → A) : M A := λ s, Return (field (this s)) s.

Definition the_world {A} (f : World → A) : M A := λ s, Return (f (world s)) s.

Definition update_this (f : Engine → Engine) : M unit :=
  λ s, Return tt {| this := f (this s); world := world s |}.

Definition update_world (f : World → World) : M unit :=
  λ s, Return tt {| this := this s; world := f (world s) |}.

(** The non-null assertion [x!] followed by a member access. *)
Definition nonnull {A} (x : option A) : M A :=
  match x with Some a => ret a | None => throw TypeError end.

(** Field assignments of the engine. *)
Definition set_ctx (v : option nat) (e : Engine) : Engine :=
  {| ctx := v; masterGain := masterGain e; binauralLeft := binauralLeft e;
     binauralRight := binauralRight e; isochronicOsc := isochronicOsc e;
     isochronicLFO := isochronicLFO e; ambientSource := ambientSource e;
     isPlaying := isPlaying e |}.

Definition set_masterGain (v : option nat) (e : Engine) : Engine :=
  {| ctx := ctx e; masterGain := v; binauralLeft := binauralLeft e;
     binauralRight := binauralRight e; isochronicOsc := isochronicOsc e;
     isochronicLFO := isochronicLFO e; ambientSource := ambientSource e;
     isPlaying := isPlaying e |}.

Definition set_binauralLeft (v : option nat) (e : Engine) : Engine :=
  {| ctx := ctx e; masterGain := masterGain e; binauralLeft := v;
     binauralRight := binauralRight e; isochronicOsc := isochronicOsc e;
     isochronicLFO := isochronicLFO e; ambientSource := ambientSource e;
     isPlaying := isPlaying e |}.

Definition set_binauralRight (v : option nat) (e : Engine) : Engine :=
  {| ctx := ctx e; masterGain := masterGain e; binauralLeft := binauralLeft e;
     binauralRight := v; isochronicOsc := isochronicOsc e;
     isochronicLFO := isochronicLFO e; ambientSource := ambientSource e;
     isPlaying := isPlaying e |}.

Definition set_isochronicOsc (v : option nat) (e : Engine) : Engine :=
  {| ctx := ctx e; masterGain := masterGain e; binauralLeft := binauralLeft e;
     binauralRight := binauralRight e; isochronicOsc := v;
     isochronicLFO := isochronicLFO e; ambientSource := ambientSource e;
     isPlaying := isPlaying e |}.

Definition set_isochronicLFO (v : option nat) (e : Engine) : Engine :=
  {| ctx := ctx e; masterGain := masterGain e; binauralLeft := binauralLeft e;
     binauralRight := binauralRight e; isochronicOsc := isochronicOsc e;
     isochronicLFO := v; ambientSource := ambientSource e;
     isPlaying := isPlaying e |}.

Definition set_ambientSource (v : option nat) (e : Engine) : Engine :=
  {| ctx := ctx e; masterGain := masterGain e; binauralLeft := binauralLeft e;
     binauralRight := binauralRight e; isochronicOsc := isochronicOsc e;
     isochronicLFO := isochronicLFO e; ambientSource := v;
     isPlaying := isPlaying e |}.

Definition set_isPlaying (v : bool) (e : Engine) : Engine :=
  {| ctx := ctx e; masterGain := masterGain e; binauralLeft := binauralLeft e;
     binauralRight := binauralRight e; isochronicOsc := isochronicOsc e;
     isochronicLFO := isochronicLFO e; ambientSource := ambientSource e;
     isPlaying := v |}.

(** Changes of the world. *)
Definition with_contexts (f : list Context → list Context) (w : World) : World :=
  {| contexts := f (contexts w); nodes := nodes w;
     connections := connections w; randomCalls := randomCalls w;
     deviceRate := deviceRate w |}.

Definition with_nodes (f : list Node → list Node) (w : World) : World :=
  {| contexts := contexts w; nodes := f (nodes w);
     connections := connections w; randomCalls := randomCalls w;
     deviceRate := deviceRate w |}.

Definition with_connections (f : list Connection → list Connection)
    (w : World) : World :=
  {| contexts := contexts w; nodes := nodes w;
     connections := f (connections w); randomCalls := randomCalls w;
     deviceRate := deviceRate w |}.

Definition with_randomCalls (f : N → N) (w : World) : World :=
  {| contexts := contexts w; nodes := nodes w;
     connections := connections w; randomCalls := f (randomCalls w);
     deviceRate := deviceRate w |}.

(** *** Web Audio calls *)

(** [ctx.createX()]: the new node is appended and named by its rank. *)
Definition create (c : nat) (k : NodeKind) : M nat :=
  n ← the_world (λ w, length (nodes w));
  update_world (with_nodes (λ l, l ++ [{| context := c; kind := k |}]));;
  ret n.

Definition createGain (c : nat) : M nat := create c (Gain 1 None).
Definition createOscillator (c : nat) : M nat :=
  create c (Oscillator sine 440 unscheduled).
Definition createBufferSource (c : nat) : M nat :=
  create c (BufferSource None false unscheduled).
Definition createBiquadFilter (c : nat) : M nat :=
  create c (BiquadFilter lowpass 350 1).
Definition createChannelMerger (c : nat) (inputs : nat) : M nat :=
  create c (ChannelMerger inputs).

(** Assignment to an attribute of node [n]. *)
Definition assign (n : nat) (f : NodeKind → NodeKind) : M unit :=
  update_world (with_nodes
    (alter (λ x, {| context := context x; kind := f (kind x) |}) n)).

(** *** The [value] of an [AudioParam]

    [value] is declared as a [float]: its setter converts the number it is
    given to single precision and throws a [TypeError] when the outcome is
    not finite, which is the case of the numbers of magnitude
    [2^128 - 2^103] and more (those that round to [2^128]).  NaN and the
    infinities, refused as well, are not among the numbers of this model,
    and the rounding of an accepted number to single precision is left out:
    the model keeps the number itself.
    A value that is accepted is clamped to the nominal range of the
    parameter: for the frequency of an oscillator, from minus to plus half
    the sample rate of its context, and for that of a filter from 0 to half
    the sample rate; the ranges of a gain and of a Q are the whole of single
    precision.  The nodes of the model hold the clamped values, those the
    nodes run at. *)
Definition float_limit : Q := inject_Z (2 ^ 128 - 2 ^ 103).

Definition float32 (v : Q) : bool := negb (Qle_bool float_limit (Qabs v)).

Definition nyquist (rate : N) : Q := Z.of_N rate # 2.

Definition clamp (lo hi v : Q) : Q := Qmax lo (Qmin hi v).

Definition oscillatorFrequency (rate : N) (v : Q) : Q :=
  clamp (- nyquist rate) (nyquist rate) v.

Definition filterFrequency (rate : N) (v : Q) : Q :=
  clamp 0 (nyquist rate) v.

(** Where the value of a parameter is put, once its setter has accepted
    it. *)
Definition gain_value (v : Q) (k : NodeKind) : NodeKind :=
  match k with Gain _ tg => Gain v tg | _ => k end.

Definition gain_target (v t tc : Q) (k : NodeKind) : NodeKind :=
  match k with Gain g _ => Gain g (Some (v, t, tc)) | _ => k end.

Definition osc_type (ty : OscillatorType) (k : NodeKind) : NodeKind :=
  match k with Oscillator _ f st => Oscillator ty f st | _ => k end.

Definition frequency_value (rate : N) (v : Q) (k : NodeKind) : NodeKind :=
  match k with
  | Oscillator ty _ st => Oscillator ty (oscillatorFrequency rate v) st
  | BiquadFilter ty _ q => BiquadFilter ty (filterFrequency rate v) q
  | _ => k
  end.

Definition filter_type (ty : BiquadFilterType) (k : NodeKind) : NodeKind :=
  match k with BiquadFilter _ f q => BiquadFilter ty f q | _ => k end.

Definition q_value (v : Q) (k : NodeKind) : NodeKind :=
  match k with BiquadFilter ty f _ => BiquadFilter ty f v | _ => k end.

Definition source_buffer (b : AudioBuffer) (k : NodeKind) : NodeKind :=
  match k with BufferSource _ lp st => BufferSource (Some b) lp st | _ => k end.

Definition source_loop (v : bool) (k : NodeKind) : NodeKind :=
  match k with BufferSource b _ st => BufferSource b v st | _ => k end.

Definition playback (k : NodeKind) : option Playback :=
  match k with
  | Oscillator _ _ st | BufferSource _ _ st => Some st
  | _ => None
  end.

Definition set_playback (st : Playback) (k : NodeKind) : NodeKind :=
  match k with
  | Oscillator ty f _ => Oscillator ty f st
  | BufferSource b lp _ => BufferSource b lp st
  | _ => k
  end.

(** [node.gain.value = v] and [node.Q.value = v], where [store] puts the
    value in its place. *)
Definition set_value (n : nat) (store : Q → NodeKind → NodeKind) (v : Q)
    : M unit :=
  if float32 v then assign n (store v) else throw TypeError.

(** [node.gain.setTargetAtTime(v, t, tc)]: the target is a [float] as
    well.  The start time is a reading of [currentTime], which is never
    negative, and the time constant is positive where the engine calls it:
    the [RangeError] of a negative one is not among the outcomes. *)
Definition setTargetAtTime (n : nat) (v t tc : Q) : M unit :=
  if float32 v then assign n (gain_target v t tc) else throw TypeError.

Definition node_playback (n : nat) : M (option Playback) :=
  the_world (λ w, x ← nodes w !! n; playback (kind x)).

(** [node.start(t)]: throws on a source that was started before. *)
Definition start (n : nat) (t : Q) : M unit :=
  st ← node_playback n;
  match st with
  | Some unscheduled => assign n (set_playback (started t))
  | _ => throw InvalidStateError
  end.

(** [node.stop()]: throws on a source that was never started. *)
Definition stop_node (n : nat) : M unit :=
  st ← node_playback n;
  match st with
  | Some (started _) | Some stopped => assign n (set_playback stopped)
  | _ => throw InvalidStateError
  end.

(** [a.connect(b)], [a.connect(b, output, input)], [a.connect(param)] *)
Definition connect (a : nat) (out : nat) (p : Port) : M unit :=
  update_world (with_connections
    (λ l, l ++ [{| from := a; output := out; to := p |}])).

(** [new AudioContextClass()]: the context starts suspended, with its
    destination node. *)
Definition newAudioContext : M nat :=
  c ← the_world (λ w, length (contexts w));
  rate ← the_world deviceRate;
  d ← create c Destination;
  update_world (with_contexts
    (λ l, l ++ [{| state := suspended; sampleRate := rate; destination := d |}]));;
  ret c.

Definition set_state (st : ContextState) (x : Context) : Context :=
  {| state := st; sampleRate := sampleRate x; destination := destination x |}.

Definition the_context (c : nat) : M Context :=
  x ← the_world (λ w, contexts w !! c); nonnull x.

(** [node.frequency.value = v]: the nominal range is that of the context
    of the node. *)
Definition set_frequency (n : nat) (v : Q) : M unit :=
  if float32 v then
    x ← the_world (λ w, nodes w !! n); x ← nonnull x;
    c ← the_context (context x);
    assign n (frequency_value (sampleRate c) v)
  else throw TypeError.

(** [ctx.resume()] and [ctx.close()] *)
Definition resume (c : nat) : M unit :=
  update_world (with_contexts (alter (set_state running) c)).

Definition close (c : nat) : M unit :=
  update_world (with_contexts (alter (set_state closed) c)).

(** [ctx.createBuffer(2, bufferSize, sampleRate)] and the noise loop of
    lines 43-54, which calls [Math.random()] once per sample. *)
Definition createNoiseBuffer (bufferSize rate : N) : M AudioBuffer :=
  k ← the_world randomCalls;
  update_world (with_randomCalls (λ n, n + 2 * bufferSize)%N);;
  ret {| numberOfChannels := 2; frames := bufferSize; bufferRate := rate;
         firstDraw := k |}.

(** *** The methods of [LyriaEngine] *)

(** The constructor leaves every field at its initializer. *)
Definition new_engine (rate : N) : State :=
  {| this := {| ctx := None; masterGain := None; binauralLeft := None;
                binauralRight := None; isochronicOsc := None;
                isochronicLFO := None; ambientSource := None;
                isPlaying := false |};
     world := {| contexts := []; nodes := []; connections := [];
                 randomCalls := 0; deviceRate := rate |} |}.

(** [init], lines 21-27 *)
Definition init : M unit :=
  c ← newAudioContext;
  update_this (set_ctx (Some c));;
  g ← createGain c;
  update_this (set_masterGain (Some g));;
  x ← the_context c;
  connect g 0 (node_input (destination x) 0);;
  set_value g gain_value 0.5.

(** One line of [stop]:
    [if (this.f) { try { this.f.stop(); } catch(e){} this.f = null; }] *)
Definition release (field : Engine → option nat)
    (set : option nat → Engine → Engine) : M unit :=
  f ← get field;
  match f with
  | Some n => try_ (stop_node n) ;; update_this (set None)
  | None => ret tt
  end.

(** [stop], lines 154-161 *)
Definition stop : M unit :=
  update_this (set_isPlaying false);;
  release ambientSource set_ambientSource;;
  release binauralLeft set_binauralLeft;;
  release binauralRight set_binauralRight;;
  release isochronicOsc set_isochronicOsc;;
  release isochronicLFO set_isochronicLFO.

(** Lines 38-81: the ambient pad. *)
Definition ambient_pad (c : nat) (t : Q) : M unit :=
  x ← the_context c;
  let bufferSize := (sampleRate x * 5)%N in
  buffer ← createNoiseBuffer bufferSize (sampleRate x);
  src ← createBufferSource c;
  update_this (set_ambientSource (Some src));;
  assign src (source_buffer buffer);;
  assign src (source_loop true);;
  filter ← createBiquadFilter c;
  assign filter (filter_type lowpass);;
  set_frequency filter 400;;
  set_value filter q_value 1;;
  filterLFO ← createOscillator c;
  set_frequency filterLFO 0.1;;
  lfoGain ← createGain c;
  set_value lfoGain gain_value 200;;
  connect filterLFO 0 (node_input lfoGain 0);;
  connect lfoGain 0 (node_param filter frequency_param);;
  start filterLFO t;;
  ambientGain ← createGain c;
  set_value ambientGain gain_value 0.15;;
  a ← get ambientSource; a ← nonnull a;
  connect a 0 (node_input filter 0);;
  connect filter 0 (node_input ambientGain 0);;
  mg ← get masterGain; mg ← nonnull mg;
  connect ambientGain 0 (node_input mg 0);;
  start a t.

(** Lines 84-110: the binaural pair. *)
Definition binaural_beats (c : nat) (config : Config) (t : Q) : M unit :=
  merger ← createChannelMerger c 2;
  l ← createOscillator c;
  update_this (set_binauralLeft (Some l));;
  assign l (osc_type sine);;
  set_frequency l (baseFreq config);;
  r ← createOscillator c;
  update_this (set_binauralRight (Some r));;
  assign r (osc_type sine);;
  set_frequency r (baseFreq config + binauralFreq config)%Q;;
  connect l 0 (node_input merger 0);;
  connect r 0 (node_input merger 1);;
  binauralGain ← createGain c;
  set_value binauralGain gain_value 0.1;;
  connect merger 0 (node_input binauralGain 0);;
  mg ← get masterGain; mg ← nonnull mg;
  connect binauralGain 0 (node_input mg 0);;
  start l t;;
  start r t.

(** Lines 113-145: the isochronic tone. *)
Definition isochronic_tones (c : nat) (config : Config) (t : Q) : M unit :=
  if isochronic config then
    osc ← createOscillator c;
    update_this (set_isochronicOsc (Some osc));;
    assign osc (osc_type sine);;
    set_frequency osc 150;;
    lfo ← createOscillator c;
    update_this (set_isochronicLFO (Some lfo));;
    assign lfo (osc_type square);;
    set_frequency lfo (binauralFreq config);;
    isoGain ← createGain c;
    lfoGainNode ← createGain c;
    set_value lfoGainNode gain_value 1.0;;
    connect lfo 0 (node_input lfoGainNode 0);;
    connect lfoGainNode 0 (node_param isoGain gain_param);;
    connect osc 0 (node_input isoGain 0);;
    mg ← get masterGain; mg ← nonnull mg;
    connect isoGain 0 (node_input mg 0);;
    set_value isoGain gain_value 0;;
    connect lfo 0 (node_param isoGain gain_param);;
    start osc t;;
    start lfo t
  else ret tt.

(** [play], lines 29-146. [now] is the value of [this.ctx!.currentTime]
    read on line 36. *)
Definition play (config : Config) (now : Q) : M unit :=
  c0 ← get ctx;
  (match c0 with None => init | Some _ => ret tt end);;
  c1 ← get ctx;
  (match c1 with
   | Some c =>
       x ← the_context c;
       match state x with suspended => resume c | _ => ret tt end
   | None => ret tt
   end);;
  stop;;
  update_this (set_isPlaying true);;
  c ← get ctx; c ← nonnull c;
  let t := now in
  ambient_pad c t;;
  binaural_beats c config t;;
  isochronic_tones c config t.

(** [setVolume], lines 148-152. [now] is [this.ctx!.currentTime], read
    only when [this.masterGain] is set, and before the call of
    [setTargetAtTime]. *)
Definition setVolume (val now : Q) : M unit :=
  g ← get masterGain;
  match g with
  | Some g =>
      c ← get ctx; _ ← nonnull c;
      setTargetAtTime g val now 0.1
  | None => ret tt
  end.

(** [destroy], lines 163-169 *)
Definition destroy : M unit :=
  stop;;
  c ← get ctx;
  match c with
  | Some c => close c ;; update_this (set_ctx None)
  | None => ret tt
  end.

(** *** Reading the graph *)

(** Nodes whose playback is under way (started and not stopped). *)
Definition is_running (x : Node) : bool :=
  match playback (kind x) with Some (started _) => true | _ => false end.

Fixpoint running_from (i : nat) (l : list Node) : list nat :=
  match l with
  | [] => []
  | x :: l' => if is_running x then i :: running_from (S i) l'
               else running_from (S i) l'
  end.

Definition running_nodes (s : State) : list nat :=
  running_from 0 (nodes (world s)).

#[global] Instance ParamName_eq_dec : EqDecision ParamName.
Proof. solve_decision. Defined.

#[global] Instance Port_eq_dec : EqDecision Port.
Proof. solve_decision. Defined.

(** The nodes connected into port [p], in the order they were connected. *)
Definition feeding (p : Port) (s : State) : list nat :=
  from <$> filter (λ c, to c = p) (connections (world s)).


Definition node_kind (n : nat) (s : State) : option NodeKind :=
  kind <$> nodes (world s) !! n.

(** The state a call leaves, returning or throwing. *)
Definition state_of {A} (r : Result A) : State :=
  match r with Return _ s | Throw _ s => s end.

Definition returns {A} (r : Result A) : bool :=
  match r with Return _ _ => true | Throw _ _ => false end.

(** *** Rendering of gain stages

    The Web Audio rules for the nodes of the isochronic chain, at one
    instant of rendering: a source that is running emits its sample
    [src n], any other source emits silence; the value of an [AudioParam]
    is its own value plus the sum of the outputs connected to it; a
    [GainNode] emits the sum of its inputs times the value of its [gain].
    [depth] bounds the length of the chains followed. *)
Definition Qsum (l : list Q) : Q := foldr Qplus 0%Q l.

Fixpoint emits (depth : nat) (src : nat → Q) (s : State) (n : nat) : Q :=
  match depth with
  | O => 0
  | S d =>
      match node_kind n s with
      | Some (Oscillator _ _ (started _))
      | Some (BufferSource _ _ (started _)) => src n
      | Some (Gain v _) =>
          ((v + Qsum (emits d src s <$> feeding (node_param n gain_param) s))
           * Qsum (emits d src s <$> feeding (node_input n 0) s))%Q
      | _ => 0
      end
  end.

(** The sample of each source at an instant at which the square LFO of a
    first [play] with the isochronic tone on (node 12) is at [lfo] and the
    carrier (node 11) at [carrier]. *)
Definition instant (lfo carrier : Q) (n : nat) : Q :=
  if Nat.eqb n 12 then lfo else if Nat.eqb n 11 then carrier else 0.

(** The value of the gain of node [n] at that instant. *)
Definition gain_control (depth : nat) (src : nat → Q) (s : State) (n : nat)
    : Q :=
  match node_kind n s with
  | Some (Gain v _) =>
      (v + Qsum (emits depth src s <$> feeding (node_param n gain_param) s))%Q
  | _ => 0
  end.


(** *** The shape of what the methods build *)

(** A state from its parts. *)
Definition St (e : Engine) (cs : list Context) (ns : list Node)
    (es : list Connection) (rc dr : N) : State :=
  {| this := e;
     world := {| contexts := cs; nodes := ns; connections := es;
                 randomCalls := rc; deviceRate := dr |} |}.

Definition halted (x : Node) : Node :=
  {| context := context x; kind := set_playback stopped (kind x) |}.

(** The nodes after [try { n.stop(); } catch(e){}] on node [n]. *)
Definition quiet (n : nat) (ns : list Node) : list Node :=
  match ns !! n ≫= (λ x, playback (kind x)) with
  | Some (started _) | Some stopped => alter halted n ns
  | _ => ns
  end.

Definition quiet_opt (o : option nat) (ns : list Node) : list Node :=
  match o with Some n => quiet n ns | None => ns end.

(** The nodes after [stop], which goes through the five fields in the
    order of lines 156-160. *)
Definition quiet_all (e : Engine) (ns : list Node) : list Node :=
  quiet_opt (isochronicLFO e) (quiet_opt (isochronicOsc e)
    (quiet_opt (binauralRight e) (quiet_opt (binauralLeft e)
      (quiet_opt (ambientSource e) ns)))).

(** The engine after [stop]. *)
Definition released (e : Engine) : Engine :=
  {| ctx := ctx e; masterGain := masterGain e; binauralLeft := None;
     binauralRight := None; isochronicOsc := None; isochronicLFO := None;
     ambientSource := None; isPlaying := false |}.

(** The five nodes of the ambient pad, named [n .. n + 4] when [n] nodes
    exist before: looped noise source, low-pass filter, filter LFO, LFO
    depth, pad level; and their connections, [g] being the master gain. *)
Definition ambient_nodes (c : nat) (rate rc : N) (t : Q) : list Node :=
  [ {| context := c;
       kind := BufferSource
         (Some {| numberOfChannels := 2; frames := rate * 5;
                  bufferRate := rate; firstDraw := rc |})
         true (started t) |};
    {| context := c; kind := BiquadFilter lowpass (filterFrequency rate 400) 1 |};
    {| context := c;
       kind := Oscillator sine (oscillatorFrequency rate 0.1) (started t) |};
    {| context := c; kind := Gain 200 None |};
    {| context := c; kind := Gain 0.15 None |} ].

Definition ambient_edges (n g : nat) : list Connection :=
  [ {| from := 2 + n; output := 0; to := node_input (3 + n) 0 |};
    {| from := 3 + n; output := 0; to := node_param (1 + n) frequency_param |};
    {| from := n; output := 0; to := node_input (1 + n) 0 |};
    {| from := 1 + n; output := 0; to := node_input (4 + n) 0 |};
    {| from := 4 + n; output := 0; to := node_input g 0 |} ].

(** The four nodes of the binaural pair, named [n .. n + 3]: merger, left
    oscillator, right oscillator, level. *)
Definition binaural_nodes (c : nat) (rate : N) (config : Config) (t : Q)
    : list Node :=
  [ {| context := c; kind := ChannelMerger 2 |};
    {| context := c;
       kind := Oscillator sine (oscillatorFrequency rate (baseFreq config))
                 (started t) |};
    {| context := c;
       kind := Oscillator sine
                 (oscillatorFrequency rate
                    (baseFreq config + binauralFreq config))
                 (started t) |};
    {| context := c; kind := Gain 0.1 None |} ].

Definition binaural_edges (n g : nat) : list Connection :=
  [ {| from := 1 + n; output := 0; to := node_input n 0 |};
    {| from := 2 + n; output := 0; to := node_input n 1 |};
    {| from := n; output := 0; to := node_input (3 + n) 0 |};
    {| from := 3 + n; output := 0; to := node_input g 0 |} ].

(** The four nodes of the isochronic tone, named [n .. n + 3]: carrier,
    square LFO, [isoGain], [lfoGainNode]. *)
Definition isochronic_nodes (c : nat) (rate : N) (config : Config) (t : Q)
    : list Node :=
  if isochronic config then
    [ {| context := c;
         kind := Oscillator sine (oscillatorFrequency rate 150) (started t) |};
      {| context := c;
         kind := Oscillator square
                   (oscillatorFrequency rate (binauralFreq config))
                   (started t) |};
      {| context := c; kind := Gain 0 None |};
      {| context := c; kind := Gain 1.0 None |} ]
  else [].

Definition isochronic_edges (config : Config) (n g : nat) : list Connection :=
  if isochronic config then
    [ {| from := 1 + n; output := 0; to := node_input (3 + n) 0 |};
      {| from := 3 + n; output := 0; to := node_param (2 + n) gain_param |};
      {| from := n; output := 0; to := node_input (2 + n) 0 |};
      {| from := 2 + n; output := 0; to := node_input g 0 |};
      {| from := 1 + n; output := 0; to := node_param (2 + n) gain_param |} ]
  else [].

(** The engine after [play] has built its layers from node [n] on. *)
Definition playing (config : Config) (c g n : nat) : Engine :=
  {| ctx := Some c; masterGain := Some g;
     binauralLeft := Some (6 + n); binauralRight := Some (7 + n);
     isochronicOsc := if isochronic config then Some (9 + n) else None;
     isochronicLFO := if isochronic config then Some (10 + n) else None;
     ambientSource := Some n; isPlaying := true |}.

(** The nodes and connections the three layers add. *)
Definition layer_nodes (config : Config) (c : nat) (rate rc : N) (t : Q)
    : list Node :=
  ambient_nodes c rate rc t ++ binaural_nodes c rate config t
  ++ isochronic_nodes c rate config t.

Definition layer_edges (config : Config) (n g : nat) : list Connection :=
  ambient_edges n g ++ binaural_edges (5 + n) g
  ++ isochronic_edges config (9 + n) g.

(** The configurations whose three frequencies the setters accept, which
    are those with which [play] gets to its end. *)
Definition playable (config : Config) : bool :=
  float32 (baseFreq config)
  && float32 (baseFreq config + binauralFreq config)
  && (negb (isochronic config) || float32 (binauralFreq config)).

(** How far [play] gets: it throws at the assignment of the frequency of
    the left oscillator (line 92), of the right oscillator (line 96) or of
    the isochronic LFO (line 121), or builds the whole. *)
Inductive Reach := left_frequency | right_frequency | lfo_frequency | whole.

Definition reach (config : Config) : Reach :=
  if float32 (baseFreq config) then
    if float32 (baseFreq config + binauralFreq config) then
      if isochronic config then
        if float32 (binauralFreq config) then whole else lfo_frequency
      else whole
    else right_frequency
  else left_frequency.

(** What [play] has built when it stops at [r]: the nodes, which hold the
    attributes assigned so far (a new oscillator is a sine at 440 Hz, not
    started), the connections, and the fields of the engine. *)
Definition built_nodes (r : Reach) (config : Config) (c : nat) (rate rc : N)
    (t : Q) : list Node :=
  match r with
  | left_frequency =>
      ambient_nodes c rate rc t
      ++ [ {| context := c; kind := ChannelMerger 2 |};
           {| context := c; kind := Oscillator sine 440 unscheduled |} ]
  | right_frequency =>
      ambient_nodes c rate rc t
      ++ [ {| context := c; kind := ChannelMerger 2 |};
           {| context := c;
              kind := Oscillator sine
                        (oscillatorFrequency rate (baseFreq config))
                        unscheduled |};
           {| context := c; kind := Oscillator sine 440 unscheduled |} ]
  | lfo_frequency =>
      ambient_nodes c rate rc t ++ binaural_nodes c rate config t
      ++ [ {| context := c;
              kind := Oscillator sine (oscillatorFrequency rate 150)
                        unscheduled |};
           {| context := c; kind := Oscillator square 440 unscheduled |} ]
  | whole => layer_nodes config c rate rc t
  end.

Definition built_edges (r : Reach) (config : Config) (n g : nat)
    : list Connection :=
  match r with
  | left_frequency | right_frequency => ambient_edges n g
  | lfo_frequency => ambient_edges n g ++ binaural_edges (5 + n) g
  | whole => layer_edges config n g
  end.

Definition holding (r : Reach) (config : Config) (c g n : nat) : Engine :=
  match r with
  | left_frequency =>
      {| ctx := Some c; masterGain := Some g;
         binauralLeft := Some (6 + n); binauralRight := None;
         isochronicOsc := None; isochronicLFO := None;
         ambientSource := Some n; isPlaying := true |}
  | right_frequency =>
      {| ctx := Some c; masterGain := Some g;
         binauralLeft := Some (6 + n); binauralRight := Some (7 + n);
         isochronicOsc := None; isochronicLFO := None;
         ambientSource := Some n; isPlaying := true |}
  | lfo_frequency =>
      {| ctx := Some c; masterGain := Some g;
         binauralLeft := Some (6 + n); binauralRight := Some (7 + n);
         isochronicOsc := Some (9 + n); isochronicLFO := Some (10 + n);
         ambientSource := Some n; isPlaying := true |}
  | whole => playing config c g n
  end.

(** [play] returns when it has built the whole and throws the [TypeError]
    of the setter otherwise. *)
Definition finish (r : Reach) (s : State) : Result unit :=
  match r with whole => Return tt s | _ => Throw TypeError s end.

Definition port_node (p : Port) : nat :=
  match p with node_input n _ | node_param n _ => n end.

(** States the methods keep to: connections run between existing nodes,
    the master gain, if any, is an existing node, and an engine that holds
    a context holds one that exists, together with its master gain. *)
Definition ready (s : State) : Prop :=
  (∀ e, e ∈ connections (world s) →
     from e < length (nodes (world s)) ∧
     port_node (to e) < length (nodes (world s))) ∧
  (∀ g, masterGain (this s) = Some g → g < length (nodes (world s))) ∧
  (∀ c, ctx (this s) = Some c →
     is_Some (contexts (world s) !! c) ∧ is_Some (masterGain (this s))).

(** The states an engine goes through: the constructor, then any calls of
    its public methods, each of which returns or throws. *)
Inductive reachable : State → Prop :=
  | reach_new rate : reachable (new_engine rate)
  | reach_play s config now :
      reachable s → reachable (state_of (play config now s))
  | reach_setVolume s val now :
      reachable s → reachable (state_of (setVolume val now s))
  | reach_stop s : reachable s → reachable (state_of (stop s))
  | reach_destroy s : reachable s → reachable (state_of (destroy s)).

End Lyria.

(* ===================================================================== *)
(** ** The Lyria engine: what it holds and what it keeps                 *)
(* ===================================================================== *)

Module LyriaState.
Import Lyria.

(** The sources the engine holds in its five node fields, in the order
    [stop] goes through them. *)
Definition held (e : Engine) : list nat :=
  [ambientSource e; binauralLeft e; binauralRight e; isochronicOsc e;
   isochronicLFO e] ≫= option_list.

(** Node [i] exists and its playback is under way. *)
Definition running_at (ns : list Node) (i : nat) : bool :=
  match ns !! i with Some x => is_running x | None => false end.

(** A connection between two existing nodes of one rendering context. *)
Definition joined (ns : list Node) (e : Connection) : Prop :=
  ∃ x y, ns !! from e = Some x ∧ ns !! port_node (to e) = Some y ∧
         context x = context y.

(** What [stop] may do to a node: its context stays, and a node that is
    not a source stays as it is. *)
Definition stage (x x' : Node) : Prop :=
  context x' = context x ∧ (playback (kind x) = None → x' = x).

(** What holds of the graph in every state the engine reaches: each
    connection joins two existing nodes of one rendering context; the
    master gain, if any, is a gain node; and an engine that holds a context
    holds a master gain of that context. *)
Definition coherent (s : State) : Prop :=
  (∀ e, e ∈ connections (world s) → joined (nodes (world s)) e) ∧
  (∀ g, masterGain (this s) = Some g →
     ∃ x v tg, nodes (world s) !! g = Some x ∧ kind x = Gain v tg) ∧
  (∀ c, ctx (this s) = Some c →
     is_Some (contexts (world s) !! c) ∧
     ∃ g x, masterGain (this s) = Some g ∧
            nodes (world s) !! g = Some x ∧ context x = c).

(** The sequence [connectToLiveAPI] runs on the engine, lines 86-92 of the
    session component: [await lyria.play(...)], then
    [lyria.setVolume(musicVol)]. *)
Definition start_music (config : Config) (t : Q) (musicVol t' : Q) : M unit :=
  play config t ;; setVolume musicVol t'.

End LyriaState.

(* ===================================================================== *)
(** ** The rest of the live session: bookkeeping, timer, level meter     *)
(* ===================================================================== *)

Module SessionView.
Import LiveSession.




(** Every suspended call took its clock reading no later than the latest
    reading [clock], and the cursor is not behind it. *)
Definition overtaken (clock : Q) (l : Live) : Prop :=
  ∀ c, c ∈ awaiting l →
    (arrival c <= clock)%Q ∧ (arrival c <= nextStartTimeRef (session l))%Q.

(** The set holds no source made before the one of rank [rank]. *)
Definition recent (rank : nat) (l : Live) : Prop :=
  rank ≤ created (session l) ∧ ∀ x, x ∈ sourcesRef (session l) → rank ≤ x.

(** The countdown of lines 23 and 40-55: the seconds left, whether the
    interval is still set, and the calls of [onEndSession] so far. *)
Record Countdown := {
  timeLeft : N;
  ticking : bool;
  endCalls : nat
}.

(** The effect run when the session connects: [setInterval(..., 1000)]. *)
Definition connected (seconds : N) : Countdown :=
  {| timeLeft := seconds; ticking := true; endCalls := 0 |}.

(** The state updater passed to [setTimeLeft], lines 43-50: the next time
    left, and whether this run of the updater clears the interval and calls
    [onEndSession]. *)
Definition updater (prev : N) : N * bool :=
  if (prev <=? 1)%N then (0%N, true) else ((prev - 1)%N, false).

(** One firing of the interval: [setTimeLeft] hands the updater to React,
    which runs it on the time left, once, and [again] more times on the
    same time left when it runs updaters again to find impure ones (once
    more under StrictMode in development), keeping one result.  Each run
    has the side effects of the updater.  A cleared interval does not
    fire. *)
Definition tick (again : nat) (c : Countdown) : Countdown :=
  if ticking c then
    match updater (timeLeft c) with
    | (next, true) =>
        {| timeLeft := next; ticking := false;
           endCalls := endCalls c + S again |}
    | (next, false) =>
        {| timeLeft := next; ticking := true; endCalls := endCalls c |}
    end
  else c.

(** The firings of the interval, one after the other; [firings] holds the
    number of further runs of the updater at each. *)
Definition countdown (firings : list nat) (c : Countdown) : Countdown :=
  foldl (λ c again, tick again c) c firings.

(** The level meter, lines 223-238, on one firing of its interval:
    [dataArray] is what [getByteFrequencyData] wrote, when the analyser
    exists. *)
Definition byte_sum (dataArray : list Byte.byte) : N :=
  foldr (λ b acc, Byte.to_N b + acc)%N 0%N dataArray.

Definition average (dataArray : list Byte.byte) : Q :=
  (Z.of_N (byte_sum dataArray) # 1) / (Z.of_nat (length dataArray) # 1).

Definition poll_volume (analyser : option (list Byte.byte))
    (state : ModelState) : Q :=
  match analyser, state with
  | Some dataArray, speaking => Qmin 1 (average dataArray / 128)
  | _, _ => 0
  end.

(** *** The clock face *)

(** [String.prototype.padStart]: the first [k] characters of [padString]
    repeated, [cur] being what is left of the copy under way. *)
Fixpoint fill (k : nat) (padString cur : string) : string :=
  match k with
  | O => ""
  | S k' =>
      match cur with
      | String c r => String c (fill k' padString r)
      | EmptyString =>
          match padString with
          | String c r => String c (fill k' padString r)
          | EmptyString => ""
          end
      end
  end.

Definition padStart (targetLength : nat) (padString s : string) : string :=
  if (targetLength <=? String.length s)%nat then s
  else fill (targetLength - String.length s) padString padString +:+ s.

(** [formatTime], lines 62-66, on a whole number of seconds; [pretty] is
    the decimal numeral, as [toString] and the template literal give for a
    whole number. *)
Definition formatTime (seconds : N) : string :=
  let mins := (seconds / 60)%N in
  let secs := (seconds mod 60)%N in
  pretty mins +:+ ":" +:+ padStart 2 "0" (pretty secs).

End SessionView.

(* ===================================================================== *)
(** ** The application shell: which view is shown                        *)
(* ===================================================================== *)

Module App.

Section Shell.

(** [SessionPlan], of which the shell only passes fields on. *)
Context {SessionPlan : Type}.

Inductive ViewState := welcome | intake | session.

(** The four pieces of React state of [App]. *)
Record AppState := {
  currentView : ViewState;
  sessionPlan : option SessionPlan;
  sessionTheme : string;
  voiceName : string
}.

Definition initial : AppState :=
  {| currentView := welcome; sessionPlan := None; sessionTheme := "sage";
     voiceName := "Zephyr" |}.

(** [onStart] of the welcome view: [() => setCurrentView('intake')]. *)
Definition handleStart (a : AppState) : AppState :=
  {| currentView := intake; sessionPlan := sessionPlan a;
     sessionTheme := sessionTheme a; voiceName := voiceName a |}.

Definition handleIntakeComplete (plan : SessionPlan) (theme voice : string)
    (a : AppState) : AppState :=
  {| currentView := session; sessionPlan := Some plan;
     sessionTheme := theme; voiceName := voice |}.

Definition handleEndSession (a : AppState) : AppState :=
  {| currentView := welcome; sessionPlan := None;
     sessionTheme := sessionTheme a; voiceName := voiceName a |}.

(** What [<main>] holds: each of the three conditional blocks renders its
    component or nothing. *)
Inductive Rendered :=
  | Welcome
  | Intake
  | LiveSession (plan : SessionPlan) (theme voice : string).

Definition main (a : AppState) : list Rendered :=
  (match currentView a with welcome => [Welcome] | _ => [] end)
  ++ (match currentView a with intake => [Intake] | _ => [] end)
  ++ (match currentView a, sessionPlan a with
      | session, Some plan =>
          [LiveSession plan (sessionTheme a) (voiceName a)]
      | _, _ => []
      end).

(** The "Live Session" mark of the header. *)
Definition live_mark (a : AppState) : bool :=
  match currentView a with session => true | _ => false end.

(** The callbacks the children may call. *)
Inductive Callback :=
  | Start
  | IntakeComplete (plan : SessionPlan) (theme voice : string)
  | EndSession.

Definition call (a : AppState) (c : Callback) : AppState :=
  match c with
  | Start => handleStart a
  | IntakeComplete plan theme voice =>
      handleIntakeComplete plan theme voice a
  | EndSession => handleEndSession a
  end.

Definition calls (cs : list Callback) (a : AppState) : AppState :=
  foldl call a cs.

(** The session view is not entered without a plan. *)
Definition planned (a : AppState) : Prop :=
  currentView a = session → is_Some (sessionPlan a).

End Shell.

Arguments AppState : clear implicits.
Arguments Callback : clear implicits.
Arguments Rendered : clear implicits.

End App.

(* ===================================================================== *)
(** ** The plan service: cleaning the text of the answer                 *)
(* ===================================================================== *)

Module PlanText.

(** A JavaScript string as the list of its UTF-16 code units. *)
Definition CodeUnit := N.

(** The characters [\s] matches and [trim()] removes: WhiteSpace and
    LineTerminator of the language. *)
Definition white_space (c : CodeUnit) : bool :=
  ((9 <=? c) && (c <=? 13) || (c =? 32) || (c =? 160) || (c =? 5760)
   || (8192 <=? c) && (c <=? 8202) || (c =? 8232) || (c =? 8233)
   || (c =? 8239) || (c =? 8287) || (c =? 12288) || (c =? 65279))%N.

Fixpoint trim_start (s : list CodeUnit) : list CodeUnit :=
  match s with
  | c :: s' => if white_space c then trim_start s' else s
  | [] => []
  end.

Definition trim_end (s : list CodeUnit) : list CodeUnit :=
  reverse (trim_start (reverse s)).

(** [s.trim()] *)
Definition trim (s : list CodeUnit) : list CodeUnit :=
  trim_end (trim_start s).

(** [p] at the head of [s]: what follows it. *)
Fixpoint after_prefix (p s : list CodeUnit) : option (list CodeUnit) :=
  match p, s with
  | [], _ => Some s
  | a :: p', b :: s' => if (a =? b)%N then after_prefix p' s' else None
  | _ :: _, [] => None
  end.

(** [s.replace(/^p\s*/, "")] for a literal [p]: the pattern can only
    match at the start, and [\s*] takes all the white space there is. *)
Definition strip_head (p s : list CodeUnit) : list CodeUnit :=
  match after_prefix p s with
  | Some rest => trim_start rest
  | None => s
  end.

(** [s.replace(/\s*p$/, "")] for a literal [p]: the match must end at the
    end of [s] and starts as far left as the white space before [p]
    reaches. *)
Definition strip_tail (p s : list CodeUnit) : list CodeUnit :=
  match after_prefix (reverse p) (reverse s) with
  | Some rest => reverse (trim_start rest)
  | None => s
  end.

(** Text made of white space only. *)
Definition blank (s : list CodeUnit) : Prop :=
  Forall (λ c, white_space c = true) s.

Definition fence : list CodeUnit := [96; 96; 96]%N.
Definition fence_json : list CodeUnit := fence ++ [106; 115; 111; 110]%N.

(** Lines 64-67: the clean-up before [JSON.parse]. *)
Definition clean (text : list CodeUnit) : list CodeUnit :=
  strip_tail fence (strip_head fence (strip_head fence_json (trim text))).

End PlanText.

(* ===================================================================== *)
(** ** The intake form                                                   *)
(* ===================================================================== *)

Module IntakeForm.
Import PlanText.

Section Form.

Context {SessionPlan : Type}.

Inductive ThemeType := nebula | forest | ocean | sunrise.

(** The four pieces of React state of [Intake]. *)
Record IntakeState := {
  issue : list CodeUnit;
  loading : bool;
  plan : option SessionPlan;
  selectedTheme : ThemeType
}.

(** What [handleSubmit] does to the outside: the call of the plan service
    with its argument, and the alert. *)
Inductive Effect :=
  | generate (issue : list CodeUnit)
  | alert (message : string).

(** [handleSubmit], lines 17-30, run to the end of its [finally].
    [generateSessionPlan issue] is the outcome of the awaited call:
    [Some plan] when the promise is fulfilled, [None] when it is rejected.
    An empty string is falsy, so [!issue.trim()] holds when nothing is left
    of the issue after [trim]. *)
Definition handleSubmit
    (generateSessionPlan : list CodeUnit → option SessionPlan)
    (st : IntakeState) : IntakeState * list Effect :=
  match trim (issue st) with
  | [] => (st, [])
  | _ :: _ =>
      match generateSessionPlan (issue st) with
      | Some generatedPlan =>
          ({| issue := issue st; loading := false;
              plan := Some generatedPlan;
              selectedTheme := selectedTheme st |},
           [generate (issue st)])
      | None =>
          ({| issue := issue st; loading := false; plan := plan st;
              selectedTheme := selectedTheme st |},
           [generate (issue st);
            alert "Failed to generate plan. Please try again."])
      end
  end.

End Form.

Arguments IntakeState : clear implicits.

End IntakeForm.

(* ===================================================================== *)
(** ** Properties of the playback scheduler                              *)
(* ===================================================================== *)

Module SchedulerFacts.
Import LiveSession.

Lemma Qmax_left (x y : Q) : (y <= x)%Q → Qmax x y = x.
Proof.
  intros Hle. unfold Qmax, GenericMinMax.gmax.
  destruct (x ?= y)%Q eqn:E; try reflexivity.
  apply Qlt_alt in E. exfalso. exact (Qle_not_lt _ _ Hle E).
Qed.

Lemma Qmax_same (x : Q) : Qmax x x = x.
Proof. apply Qmax_left, Qle_refl. Qed.

Lemma run_cons dec e evs s : run dec (e :: evs) s = run dec evs (step dec s e).
Proof. reflexivity. Qed.

(** A call during which nothing else runs, in one piece. *)
Lemma onmessage_whole dec msg t0 t1 s :
  onmessage dec msg t0 t1 s
  = match inlineData msg with
    | Some audioData =>
        if truthy audioData then
          if audioContextRef s then
            match dec audioData with
            | Some audioBuffer =>
                (handle_interrupted msg t1
                   (schedule_tail audioBuffer (schedule_head t0 s)),
                 Fulfilled)
            | None => (schedule_head t0 s, Rejected)
            end
          else (set_speaking s, Fulfilled)
        else (handle_interrupted msg t1 s, Fulfilled)
    | None => (handle_interrupted msg t1 s, Fulfilled)
    end.
Proof.
  unfold onmessage, onmessage_begin, onmessage_resume.
  destruct (inlineData msg) as [data|]; [|done].
  destruct (truthy data); [|done]. by destruct (audioContextRef s).
Qed.

Section Scheduling.

Variable dec : string → option AudioBuffer.

(** One decodable chunk, handled to completion: the contract of the
    scheduler for an arriving chunk. *)
Lemma chunk_scheduled s t0 t1 data b :
  audioContextRef s = true → truthy data = true → dec data = Some b →
  onmessage dec (chunk data) t0 t1 s
  = (schedule_tail b (schedule_head t0 s), Fulfilled).
Proof.
  intros Hc Ht Hd. rewrite onmessage_whole. unfold chunk; simpl.
  rewrite Ht, Hc, Hd. reflexivity.
Qed.

(** From a cursor that no arrival overtakes, the chunks start one after
    the other from that cursor on. *)
Lemma in_time_starts evs : ∀ s,
  audioContextRef s = true →
  Forall speech evs →
  arrive_in_time dec (nextStartTimeRef s) (chunks_of evs) →
  (startCalls (run dec evs s)).*2
  = (startCalls s).*2
    ++ gapless_starts (nextStartTimeRef s) (durations dec (chunks_of evs)).
Proof.
  induction evs as [|e evs IH]; intros s Hc Hsp Hin.
  - simpl. by rewrite app_nil_r.
  - apply Forall_cons in Hsp as [He Hsp]. rewrite run_cons.
    destruct e as [|msg t0 t1|h]; [done| |].
    + destruct He as [Hi (data & Hd & Ht)].
      simpl in Hin |- *. rewrite Hd in Hin |- *.
      destruct Hin as [Hle Hin].
      destruct (dec data) as [b|] eqn:Hb; [|done].
      assert (Hm : msg = chunk data).
      { destruct msg as [d i]. simpl in *. by subst. }
      subst msg. rewrite (chunk_scheduled s t0 t1 data b) by done. simpl fst.
      rewrite IH; simpl; rewrite ?(Qmax_left _ _ Hle); try done.
      rewrite Hb, fmap_app. simpl. by rewrite <- app_assoc.
    + simpl in Hin |- *. by rewrite IH.
Qed.


End Scheduling.

(** When a second chunk arrives while the first is still being decoded,
    both clamps run before either continuation: the first chunk then starts
    at the cursor raised by both arrivals, and the second still starts
    where the first ends. *)
Lemma interleaved_decodes_chain s t1 t2 b1 b2 :
  let cursor := Qmax (Qmax (nextStartTimeRef s) t1) t2 in
  startCalls
    (schedule_tail b2 (schedule_tail b1 (schedule_head t2 (schedule_head t1 s))))
  = startCalls s
    ++ [(created s, cursor); (S (created s), (cursor + duration b1)%Q)].
Proof. simpl. by rewrite <- app_assoc. Qed.

(** *** Calls suspended at the [await] *)

Lemma exec_cons dec a acts l :
  exec dec (a :: acts) l = exec dec acts (act dec l a).
Proof. reflexivity. Qed.

Lemma exec_app dec acts acts' l :
  exec dec (acts ++ acts') l = exec dec acts' (exec dec acts l).
Proof. apply foldl_app. Qed.

(** A trace of [run] is a trace of [exec]: the one in which each decode
    settles before anything else is handled. *)
Lemma run_in_turn dec evs : ∀ s,
  exec dec (evs ≫= in_turn) (idling s) = idling (run dec evs s).
Proof.
  induction evs as [|e evs IH]; intros s; [done|].
  cbn [mbind list_bind]. rewrite exec_app, run_cons, <- IH. f_equal.
  destruct e as [|msg t0 t1|h]; [done| |done].
  cbn [in_turn step]. unfold onmessage, idling.
  destruct (inlineData msg) as [data|] eqn:Hd.
  - destruct (truthy data) eqn:Ht.
    + cbn [exec foldl act session awaiting]. unfold onmessage_begin.
      rewrite Hd, Ht. destruct (audioContextRef s); reflexivity.
    + cbn [exec foldl act session awaiting]. unfold onmessage_begin.
      by rewrite Hd, Ht.
  - cbn [exec foldl act session awaiting]. unfold onmessage_begin.
    by rewrite Hd.
Qed.


(** The decode of a suspended call settles. *)
Lemma call_settles dec l k c now :
  awaiting l !! k = Some c →
  act dec l (Settles k now)
  = {| session :=
         match dec (payload c) with
         | Some b =>
             handle_interrupted (message c) now (schedule_tail b (session l))
         | None => session l
         end;
       awaiting := delete k (awaiting l) |}.
Proof.
  intros Hk. cbn [act]. rewrite Hk. unfold onmessage_resume.
  by destruct (dec (payload c)).
Qed.

Lemma startCalls_interrupted msg now s :
  startCalls (handle_interrupted msg now s) = startCalls s.
Proof. unfold handle_interrupted. by destruct (interrupted msg). Qed.







(** The interruption branch, whatever the set holds. *)
Lemma barge_in_handled dec s t0 now :
  onmessage dec barge_in t0 now s = (interrupt now s, Fulfilled).
Proof. reflexivity. Qed.

(** C2 (interruption), as the code has it. On a session whose output
    context exists, an interruption signal handled at clock reading [now]
    raises no error, calls [stop()] on every handle of the set, in order,
    clears the set, sets the state to listening and resets the cursor to
    [now]; this is so for every number of active chunks, zero included (the
    cursor is reset, not kept).  A chunk that arrives at the same clock
    reading right afterwards starts at that reset cursor. *)
Theorem interruption_resets_cursor dec s t0 now :
  audioContextRef s = true →
  let r := onmessage dec barge_in t0 now s in
  snd r = Fulfilled ∧
  stopCalls (fst r) = stopCalls s ++ sourcesRef s ∧
  sourcesRef (fst r) = [] ∧
  nextStartTimeRef (fst r) = now ∧
  modelState (fst r) = listening ∧
  startCalls (fst r) = startCalls s ∧
  ∀ data b t1, truthy data = true → dec data = Some b →
    startCalls (fst (onmessage dec (chunk data) now t1 (fst r)))
    = startCalls s ++ [(created s, now)].
Proof.
  intros Hc r. unfold r. rewrite barge_in_handled. simpl.
  rewrite Hc. split_and!; try done.
  intros data b t1 Ht Hd.
  rewrite (chunk_scheduled dec _ now t1 data b); simpl; try done.
  by rewrite Hc, Qmax_same.
Qed.

(** Two chunks are active on an opened session when the interruption
    arrives at 3 s. *)
Lemma interruption_resets_cursor_witness :
  let s := run pcm24k [Open; Message (chunk "abcdefgh") 1 1;
                       Message (chunk "abcd") 1 1] mounted in
  audioContextRef s = true ∧
  sourcesRef s = [0; 1] ∧
  stopCalls (fst (onmessage pcm24k barge_in 3 3 s)) = [0; 1] ∧
  sourcesRef (fst (onmessage pcm24k barge_in 3 3 s)) = [] ∧
  nextStartTimeRef (fst (onmessage pcm24k barge_in 3 3 s)) = 3%Q.
Proof.
  pose proof (interruption_resets_cursor pcm24k
    (run pcm24k [Open; Message (chunk "abcdefgh") 1 1;
                 Message (chunk "abcd") 1 1] mounted) 3 3 eq_refl) as H.
  simpl in H. destruct H as (_ & Hstop & Hset & Hcur & _).
  split_and!; [reflexivity | reflexivity | exact Hstop | exact Hset | exact Hcur].
Defined.

(** C2, as stated, fails: on a session with no active chunk whose cursor
    is still 0, an interruption handled at 3 s moves the cursor to 3. *)
Lemma interruption_idle_moves_cursor :
  let s := onopen mounted in
  let s' := fst (onmessage pcm24k barge_in 3 3 s) in
  sourcesRef s = [] ∧
  nextStartTimeRef s = 0%Q ∧
  nextStartTimeRef s' = 3%Q ∧
  ¬ (nextStartTimeRef s' == nextStartTimeRef s)%Q.
Proof. simpl. split_and!; try reflexivity. intros H. discriminate H. Qed.

(** C3: the failing run. An opened session with an empty set receives one
    chunk whose payload does not decode: the handler has set the state to
    speaking before the decoding and nothing brings it back, so the state is
    speaking over an empty set. *)
Theorem undecodable_chunk_leaves_speaking :
  let s := run pcm24k [Open; Message (chunk "abc") 1 1] mounted in
  pcm24k "abc" = None ∧
  modelState s = speaking ∧
  sourcesRef s = [] ∧
  ¬ derived s.
Proof.
  simpl. split_and!; try reflexivity.
  intros [[H _] _]. by apply H.
Qed.

Lemma set_add_nonempty h l : set_add h l ≠ [].
Proof.
  unfold set_add. destruct (decide (h ∈ l)) as [Hin|_].
  - intros ->. by apply not_elem_of_nil in Hin.
  - by destruct l.
Qed.

(** What does hold of the state: while every chunk decodes, the state is
    speaking exactly when the set is non-empty, after each handler has run
    to completion. *)
Lemma derived_step dec s e :
  audioContextRef s = true → decodes dec e → e ≠ Open →
  derived s → derived (step dec s e) ∧ audioContextRef (step dec s e) = true.
Proof.
  intros Hc Hdec Hne [Hsp Hli].
  destruct e as [|msg t0 t1|h]; [done| |].
  - simpl in *. rewrite onmessage_whole. unfold handle_interrupted.
    destruct (inlineData msg) as [data|].
    + destruct (truthy data).
      * rewrite Hc. destruct Hdec as [b ->].
        destruct (interrupted msg); simpl; unfold derived; simpl.
        -- by rewrite Hc.
        -- pose proof (set_add_nonempty (created s) (sourcesRef s)).
           split; [|done]. split; split; done.
      * destruct (interrupted msg); simpl; unfold derived; simpl; [|done].
        split; [|done]. split; split; done.
    + destruct (interrupted msg); simpl; unfold derived; simpl; [|done].
      split; [|done]. split; split; done.
  - simpl. split; [|done]. unfold derived; simpl.
    destruct (set_delete h (sourcesRef s)) eqn:E.
    + split; split; done.
    + assert (sourcesRef s ≠ []).
      { intros Hnil. unfold set_delete in E. by rewrite Hnil in E. }
      split; split; try done.
      * intros _. by apply Hsp.
      * intros Hl. by apply Hli in Hl.
Qed.

Lemma derived_invariant dec evs : ∀ s,
  audioContextRef s = true →
  Forall (decodes dec) evs → Forall (λ e, e ≠ Open) evs →
  derived s → derived (run dec evs s).
Proof.
  induction evs as [|e evs IH]; intros s Hc Hd Hn Hs; [done|].
  apply Forall_cons in Hd as [Hd Hds]. apply Forall_cons in Hn as [Hn Hns].
  rewrite run_cons.
  destruct (derived_step dec s e Hc Hd Hn Hs) as [Hs' Hc'].
  by apply IH.
Qed.

(** The sequence of the specification on an opened session: empty, a chunk
    is scheduled, non-empty, the chunk completes, empty again. *)
Lemma derived_sequence :
  let s0 := onopen mounted in
  let s1 := step pcm24k s0 (Message (chunk "abcd") 1 1) in
  let s2 := step pcm24k s1 (Ended 0) in
  (sourcesRef s0 = [] ∧ modelState s0 = listening) ∧
  (sourcesRef s1 = [0] ∧ modelState s1 = speaking) ∧
  (sourcesRef s2 = [] ∧ modelState s2 = listening).
Proof. by vm_compute. Qed.





End SchedulerFacts.

(* ===================================================================== *)
(** ** Properties of the noise buffer                                    *)
(* ===================================================================== *)

Module NoiseFacts.
Import Noise.

Lemma out_seq_step rnd k :
  out_seq rnd k = snd (sample (running_value rnd k) (rnd k)).
Proof. by destruct k. Qed.

(** The inner loop, started on the running value of one uninterrupted run,
    continues that run. *)
Lemma fill_channel_run rnd n : ∀ k,
  fill_channel rnd n k (running_value rnd k)
  = ((λ i, out_seq rnd i * 3.5)%Q <$> seq k n, running_value rnd (k + n)).
Proof.
  induction n as [|n IH]; intros k.
  - simpl. by rewrite Nat.add_0_r.
  - cbn [fill_channel]. unfold sample at 1. fold (white (rnd k)).
    change ((running_value rnd k + 0.02 * white (rnd k)) / 1.02)%Q
      with (snd (sample (running_value rnd k) (rnd k))).
    rewrite <- out_seq_step.
    change (out_seq rnd k) with (running_value rnd (S k)) at 2.
    rewrite IH. simpl. by rewrite Nat.add_succ_r.
Qed.

Lemma noise_buffer_run rnd n :
  noise_buffer rnd n
  = [ (λ i, out_seq rnd i * 3.5)%Q <$> seq 0 n;
      (λ i, out_seq rnd i * 3.5)%Q <$> seq n n ].
Proof.
  unfold noise_buffer. cbn [fill_channels].
  change 0%Q with (running_value rnd 0) at 1.
  rewrite fill_channel_run. simpl "+".
  by rewrite fill_channel_run.
Qed.

Lemma white_range (r : Q) : (0 <= r)%Q → (r < 1)%Q →
  (-1 <= white r)%Q ∧ (white r < 1)%Q.
Proof.
  unfold white, Qle, Qlt, Qminus, Qplus, Qmult, Qopp.
  destruct r as [p q]. simpl. intros H0 H1. lia.
Qed.

Lemma out_seq_ext rnd rnd' n :
  (∀ k, k < n → rnd' k = rnd k) →
  ∀ k, k < n → out_seq rnd' k = out_seq rnd k.
Proof.
  intros Hext k. induction k as [|k IH]; intros Hk; simpl.
  - by rewrite Hext.
  - rewrite Hext by done. rewrite IH by lia. done.
Qed.

(** C6 (noise recurrence), as the code has it. With [white = 2 r - 1] in
    [-1, 1) for a draw [r] in [0, 1), the running value obeys
    [out = (prev + 0.02 white) / 1.02] from [prev = 0] through one single
    run over all the draws: the stored sample number [i] of the left channel
    is 3.5 times the running value after draw [i], that of the right
    channel 3.5 times the running value after draw [n + i], so the running
    value persists over each channel and is carried from the end of the left
    channel into the right one.  The buffer is a function of its first
    [2 n] draws: the same draws give the same samples. *)
Theorem noise_recurrence (rnd : nat → Q) (n : nat) :
  (∀ r, (0 <= r)%Q → (r < 1)%Q → (-1 <= white r)%Q ∧ (white r < 1)%Q) ∧
  out_seq rnd 0 = ((0 + 0.02 * white (rnd 0%nat)) / 1.02)%Q ∧
  (∀ k, out_seq rnd (S k)
        = ((out_seq rnd k + 0.02 * white (rnd (S k)%nat)) / 1.02)%Q) ∧
  (∃ left right,
     noise_buffer rnd n = [left; right] ∧
     length left = n ∧ length right = n ∧
     (∀ i, i < n → left !! i = Some (out_seq rnd i * 3.5)%Q) ∧
     (∀ i, i < n → right !! i = Some (out_seq rnd (n + i) * 3.5)%Q)) ∧
  (∀ rnd', (∀ k, k < 2 * n → rnd' k = rnd k) →
     noise_buffer rnd' n = noise_buffer rnd n).
Proof.
  split_and!.
  - exact white_range.
  - reflexivity.
  - reflexivity.
  - eexists _, _. split; [apply noise_buffer_run|].
    rewrite !length_fmap, !length_seq. split_and!; try done.
    + intros i Hi. by rewrite list_lookup_fmap, lookup_seq_lt.
    + intros i Hi. by rewrite list_lookup_fmap, lookup_seq_lt.
  - intros rnd' Hext. rewrite !noise_buffer_run.
    f_equal; [|f_equal]; apply list_fmap_ext; intros i x Hx;
      apply lookup_seq in Hx as [-> Hlt];
      (rewrite (out_seq_ext rnd rnd' (2 * n)); [done | done | lia]).
Qed.

(** The running value stays at 0 as long as every draw is 1/2. *)
Lemma spike_quiet j : ∀ k, k ≤ j → (running_value (spike j) k == 0)%Q.
Proof.
  induction k as [|k IH]; intros Hk; [reflexivity|].
  change (running_value (spike j) (S k)) with (out_seq (spike j) k).
  rewrite out_seq_step. unfold sample. cbn [snd].
  assert (Hs : spike j k = 1 # 2).
  { unfold spike. by replace (k =? j) with false
      by (symmetry; apply Nat.eqb_neq; lia). }
  rewrite Hs, IH by lia. by vm_compute.
Qed.

Lemma spike_after j : (running_value (spike j) (S j) == 1 # 102)%Q.
Proof.
  change (running_value (spike j) (S j)) with (out_seq (spike j) j).
  rewrite out_seq_step. unfold sample. cbn [snd].
  assert (Hs : spike j j = 3 # 4).
  { unfold spike. by rewrite Nat.eqb_refl. }
  rewrite Hs, spike_quiet by done. by vm_compute.
Qed.

Lemma right_head_code rnd n :
  right_head (noise_buffer rnd (S n))
  = Some (fst (sample (running_value rnd (S n)) (rnd (S n)))).
Proof.
  rewrite noise_buffer_run. unfold right_head. simpl.
  by rewrite out_seq_step.
Qed.

Lemma right_head_independent rnd n :
  right_head (independent_buffer rnd (S n))
  = Some (fst (sample 0 (rnd (S n)))).
Proof.
  unfold right_head, independent_buffer. simpl.
  by destruct (fill_channel rnd n (S (S n)) _).
Qed.

Lemma spike_leaks j :
  ∃ x y,
    right_head (noise_buffer (spike j) (S j)) = Some x ∧
    right_head (independent_buffer (spike j) (S j)) = Some y ∧
    (x == 175 # 5202)%Q ∧ (y == 0)%Q.
Proof.
  assert (Hs : spike j (S j) = 1 # 2).
  { unfold spike. by replace (S j =? j) with false
      by (symmetry; apply Nat.eqb_neq; lia). }
  eexists _, _. split; [apply right_head_code|].
  split; [apply right_head_independent|].
  rewrite Hs. unfold sample. cbn [fst]. split.
  - rewrite spike_after. by vm_compute.
  - by vm_compute.
Qed.

(** C6, as stated, fails on the independence of the channels. At 48 kHz
    the buffer has 240000 samples per channel; let every draw be 1/2 (white
    is 0) but the last draw of the left channel, which is 3/4.  The first
    sample of the right channel is 175/5202 in the buffer the code fills,
    and 0 in the buffer whose channels each run from a running value of
    their own. *)
Lemma channels_not_independent :
  let n := N.to_nat (48000 * 5) in
  let rnd := spike (n - 1) in
  (∃ x y,
     right_head (noise_buffer rnd n) = Some x ∧
     right_head (independent_buffer rnd n) = Some y ∧
     (x == 175 # 5202)%Q ∧ (y == 0)%Q) ∧
  noise_buffer rnd n ≠ independent_buffer rnd n.
Proof.
  intros n rnd.
  assert (Hn : n = S (n - 1)) by (unfold n; lia).
  assert (H : ∃ x y,
     right_head (noise_buffer rnd n) = Some x ∧
     right_head (independent_buffer rnd n) = Some y ∧
     (x == 175 # 5202)%Q ∧ (y == 0)%Q).
  { unfold rnd. clearbody n. remember (n - 1) as j eqn:Ej. clear Ej.
    subst n. apply spike_leaks. }
  split; [exact H|].
  destruct H as (x & y & Hx & Hy & Ex & Ey). intros Heq.
  rewrite Heq, Hy in Hx. injection Hx as ->.
  rewrite Ex in Ey. discriminate Ey.
Qed.

End NoiseFacts.

(* ===================================================================== *)
(** ** Properties of the Lyria engine                                    *)
(* ===================================================================== *)

Module EngineFacts.
Import Lyria LyriaState.

(** *** Running the monad step by step *)

Lemma bind_step {A B} (m : M A) (k : A → M B) s a s' r :
  m s = Return a s' → k a s' = r → (m ≫= k) s = r.
Proof. intros Hm Hk. unfold mbind, M_bind, bind. by rewrite Hm. Qed.

Lemma create_eval e cs ns ext es rc dr c k :
  create c k (St e cs (ns ++ ext) es rc dr)
  = Return (length ext + length ns)
      (St e cs (ns ++ (ext ++ [{| context := c; kind := k |}])) es rc dr).
Proof. rewrite Nat.add_comm, <- length_app, app_assoc. reflexivity. Qed.

Lemma assign_eval e cs ns ext es rc dr i f :
  assign (i + length ns) f (St e cs (ns ++ ext) es rc dr)
  = Return tt (St e cs
      (ns ++ alter (λ x, {| context := context x; kind := f (kind x) |}) i ext)
      es rc dr).
Proof. rewrite Nat.add_comm, <- alter_app_r. reflexivity. Qed.

Lemma bind_throw {A B} (m : M A) (k : A → M B) s e s' :
  m s = Throw e s' → (m ≫= k) s = Throw e s'.
Proof. intros Hm. unfold mbind, M_bind, bind. by rewrite Hm. Qed.

Lemma set_value_eval e cs ns ext es rc dr i store v :
  float32 v = true →
  set_value (i + length ns) store v (St e cs (ns ++ ext) es rc dr)
  = Return tt (St e cs
      (ns ++ alter (λ x, {| context := context x;
                            kind := store v (kind x) |}) i ext)
      es rc dr).
Proof. intros Hv. unfold set_value. rewrite Hv. apply assign_eval. Qed.

Lemma set_value_throws n store v s :
  float32 v = false → set_value n store v s = Throw TypeError s.
Proof. intros Hv. unfold set_value. by rewrite Hv. Qed.

Lemma start_eval e cs ns ext es rc dr i t x :
  ext !! i = Some x → playback (kind x) = Some unscheduled →
  start (i + length ns) t (St e cs (ns ++ ext) es rc dr)
  = Return tt (St e cs
      (ns ++ alter (λ x, {| context := context x;
                            kind := set_playback (started t) (kind x) |}) i ext)
      es rc dr).
Proof.
  intros Hx Hp. unfold start.
  apply (bind_step _ _ _ (Some unscheduled) (St e cs (ns ++ ext) es rc dr)).
  - assert (Hl : (ns ++ ext) !! (i + length ns) = Some x).
    { rewrite lookup_app_r by lia.
      by replace (i + length ns - length ns) with i by lia. }
    unfold node_playback, the_world, St. cbn [world nodes].
    rewrite Hl. cbn. by rewrite Hp.
  - apply assign_eval.
Qed.

Lemma connect_eval e cs ns es ext rc dr a o p :
  connect a o p (St e cs ns (es ++ ext) rc dr)
  = Return tt
      (St e cs ns (es ++ (ext ++ [{| from := a; output := o; to := p |}]))
          rc dr).
Proof. rewrite app_assoc. reflexivity. Qed.

Lemma get_eval {A} (f : Engine → A) e cs ns es rc dr :
  get f (St e cs ns es rc dr) = Return (f e) (St e cs ns es rc dr).
Proof. reflexivity. Qed.

Lemma update_this_eval f e cs ns es rc dr :
  update_this f (St e cs ns es rc dr) = Return tt (St (f e) cs ns es rc dr).
Proof. reflexivity. Qed.

Lemma the_context_eval e cs ns es rc dr c x :
  cs !! c = Some x →
  the_context c (St e cs ns es rc dr) = Return x (St e cs ns es rc dr).
Proof.
  intros H. unfold the_context, the_world, St.
  unfold mbind, M_bind, bind. cbn [world contexts]. by rewrite H.
Qed.

Lemma createNoiseBuffer_eval e cs ns es rc dr n r :
  createNoiseBuffer n r (St e cs ns es rc dr)
  = Return {| numberOfChannels := 2; frames := n; bufferRate := r;
              firstDraw := rc |}
      (St e cs ns es (rc + 2 * n)%N dr).
Proof. reflexivity. Qed.

Lemma nonnull_eval {A} (a : A) s : nonnull (Some a) s = Return a s.
Proof. reflexivity. Qed.

Lemma ret_eval {A} (a : A) s : mret (M := M) a s = Return a s.
Proof. reflexivity. Qed.

Lemma set_frequency_eval e cs ns ext es rc dr i v y x :
  ext !! i = Some y → cs !! context y = Some x → float32 v = true →
  set_frequency (i + length ns) v (St e cs (ns ++ ext) es rc dr)
  = Return tt (St e cs
      (ns ++ alter (λ z, {| context := context z;
                            kind := frequency_value (sampleRate x) v
                                      (kind z) |}) i ext)
      es rc dr).
Proof.
  intros Hy Hx Hv. unfold set_frequency. rewrite Hv.
  assert (Hl : (ns ++ ext) !! (i + length ns) = Some y).
  { rewrite lookup_app_r by lia.
    by replace (i + length ns - length ns) with i by lia. }
  eapply bind_step.
  { unfold the_world, St. cbn [world nodes]. by rewrite Hl. }
  eapply bind_step; [apply nonnull_eval|].
  eapply bind_step; [by apply the_context_eval|].
  apply assign_eval.
Qed.

Lemma set_frequency_throws n v s :
  float32 v = false → set_frequency n v s = Throw TypeError s.
Proof. intros Hv. unfold set_frequency. by rewrite Hv. Qed.

(** The rank of a node above the [length ns] nodes that were there. *)
Ltac above n :=
  lazymatch n with
  | S ?m => let k := above m in constr:(S k)
  | _ => constr:(O)
  end.

Ltac prim :=
  lazymatch goal with
  | |- create _ _ _ = _ => apply create_eval
  | |- assign ?n _ _ = _ =>
      let i := above n in apply (assign_eval _ _ _ _ _ _ _ i)
  | |- set_value ?n _ _ _ = _ =>
      let i := above n in
      apply (set_value_eval _ _ _ _ _ _ _ i); first [assumption | reflexivity]
  | |- set_frequency ?n _ _ = _ =>
      let i := above n in
      eapply (set_frequency_eval _ _ _ _ _ _ _ i);
      [ reflexivity | cbn [context]; eassumption
      | first [assumption | reflexivity] ]
  | |- start ?n _ _ = _ =>
      let i := above n in
      eapply (start_eval _ _ _ _ _ _ _ i); reflexivity
  | |- connect _ _ _ _ = _ => apply connect_eval
  | |- get _ _ = _ => apply get_eval
  | |- update_this _ _ = _ => apply update_this_eval
  | |- the_context _ _ = _ => apply the_context_eval; eassumption
  | |- createNoiseBuffer _ _ _ = _ => apply createNoiseBuffer_eval
  | |- nonnull _ _ = _ => apply nonnull_eval
  | |- mret _ _ = _ => apply ret_eval
  end.

Ltac tidy :=
  cbn [length app Nat.add alter list_alter context kind set_playback
       gain_value frequency_value filter_type q_value osc_type
       source_buffer source_loop gain_target
       set_ctx set_masterGain set_binauralLeft set_binauralRight
       set_isochronicOsc set_isochronicLFO set_ambientSource set_isPlaying
       ctx masterGain binauralLeft binauralRight isochronicOsc
       isochronicLFO ambientSource isPlaying].

Ltac step :=
  lazymatch goal with
  | |- (_ ≫= _) _ = _ => eapply bind_step; [ prim | tidy ]
  | |- _ => prim
  end.

Lemma ambient_pad_eval e cs ns es rc dr c x g t :
  cs !! c = Some x → masterGain e = Some g →
  ambient_pad c t (St e cs ns es rc dr)
  = Return tt
      (St (set_ambientSource (Some (length ns)) e) cs
          (ns ++ ambient_nodes c (sampleRate x) rc t)
          (es ++ ambient_edges (length ns) g)
          (rc + 2 * (sampleRate x * 5))%N dr).
Proof.
  intros Hx Hg. destruct e as [c0 mg bl br io il am pl]. simpl in Hg. subst mg.
  rewrite <- (app_nil_r ns) at 1. rewrite <- (app_nil_r es) at 1.
  unfold ambient_pad, createBufferSource, createBiquadFilter,
    createOscillator, createGain.
  etransitivity; [repeat step|reflexivity].
Qed.

Ltac halt :=
  lazymatch goal with
  | |- (_ ≫= _) _ = _ =>
      eapply bind_throw; apply set_frequency_throws; assumption
  | |- _ => apply set_frequency_throws; assumption
  end.

Lemma binaural_beats_eval e cs ns es rc dr c x g config t :
  cs !! c = Some x → masterGain e = Some g →
  float32 (baseFreq config) = true →
  float32 (baseFreq config + binauralFreq config) = true →
  binaural_beats c config t (St e cs ns es rc dr)
  = Return tt
      (St (set_binauralRight (Some (2 + length ns))
             (set_binauralLeft (Some (1 + length ns)) e)) cs
          (ns ++ binaural_nodes c (sampleRate x) config t)
          (es ++ binaural_edges (length ns) g) rc dr).
Proof.
  intros Hx Hg Hl Hr. destruct e as [c0 mg bl br io il am pl].
  simpl in Hg. subst mg.
  rewrite <- (app_nil_r ns) at 1. rewrite <- (app_nil_r es) at 1.
  unfold binaural_beats, createChannelMerger, createOscillator, createGain.
  etransitivity; [repeat step|reflexivity].
Qed.

(** The setter refuses the frequency of the left oscillator, line 92. *)
Lemma binaural_beats_left e cs ns es rc dr c config t :
  float32 (baseFreq config) = false →
  binaural_beats c config t (St e cs ns es rc dr)
  = Throw TypeError
      (St (set_binauralLeft (Some (1 + length ns)) e) cs
          (ns ++ [ {| context := c; kind := ChannelMerger 2 |};
                   {| context := c;
                      kind := Oscillator sine 440 unscheduled |} ])
          es rc dr).
Proof.
  intros Hl. rewrite <- (app_nil_r ns) at 1.
  unfold binaural_beats, createChannelMerger, createOscillator.
  etransitivity; [repeat step; halt|reflexivity].
Qed.

(** The setter refuses the frequency of the right oscillator, line 96. *)
Lemma binaural_beats_right e cs ns es rc dr c x config t :
  cs !! c = Some x →
  float32 (baseFreq config) = true →
  float32 (baseFreq config + binauralFreq config) = false →
  binaural_beats c config t (St e cs ns es rc dr)
  = Throw TypeError
      (St (set_binauralRight (Some (2 + length ns))
             (set_binauralLeft (Some (1 + length ns)) e)) cs
          (ns ++ [ {| context := c; kind := ChannelMerger 2 |};
                   {| context := c;
                      kind := Oscillator sine
                                (oscillatorFrequency (sampleRate x)
                                   (baseFreq config))
                                unscheduled |};
                   {| context := c;
                      kind := Oscillator sine 440 unscheduled |} ])
          es rc dr).
Proof.
  intros Hx Hl Hr. rewrite <- (app_nil_r ns) at 1.
  unfold binaural_beats, createChannelMerger, createOscillator.
  etransitivity; [repeat step; halt|reflexivity].
Qed.

Lemma isochronic_tones_eval e cs ns es rc dr c x g config t :
  cs !! c = Some x → masterGain e = Some g →
  (isochronic config = true → float32 (binauralFreq config) = true) →
  isochronic_tones c config t (St e cs ns es rc dr)
  = Return tt
      (St (if isochronic config
           then set_isochronicLFO (Some (1 + length ns))
                  (set_isochronicOsc (Some (length ns)) e)
           else e) cs
          (ns ++ isochronic_nodes c (sampleRate x) config t)
          (es ++ isochronic_edges config (length ns) g) rc dr).
Proof.
  intros Hx Hg Hb. destruct e as [c0 mg bl br io il am pl].
  simpl in Hg. subst mg.
  unfold isochronic_tones, isochronic_nodes, isochronic_edges.
  destruct (isochronic config).
  - specialize (Hb eq_refl).
    rewrite <- (app_nil_r ns) at 1. rewrite <- (app_nil_r es) at 1.
    unfold createOscillator, createGain.
    etransitivity; [repeat step|reflexivity].
  - by rewrite !app_nil_r.
Qed.

(** The setter refuses the frequency of the isochronic LFO, line 121. *)
Lemma isochronic_tones_lfo e cs ns es rc dr c x config t :
  cs !! c = Some x →
  isochronic config = true → float32 (binauralFreq config) = false →
  isochronic_tones c config t (St e cs ns es rc dr)
  = Throw TypeError
      (St (set_isochronicLFO (Some (1 + length ns))
             (set_isochronicOsc (Some (length ns)) e)) cs
          (ns ++ [ {| context := c;
                      kind := Oscillator sine
                                (oscillatorFrequency (sampleRate x) 150)
                                unscheduled |};
                   {| context := c;
                      kind := Oscillator square 440 unscheduled |} ])
          es rc dr).
Proof.
  intros Hx Hi Hb. unfold isochronic_tones. rewrite Hi.
  rewrite <- (app_nil_r ns) at 1. unfold createOscillator.
  etransitivity; [repeat step; halt|reflexivity].
Qed.

Lemma init_eval e cs ns es rc dr :
  init (St e cs ns es rc dr)
  = Return tt
      (St (set_masterGain (Some (1 + length ns))
             (set_ctx (Some (length cs)) e))
          (cs ++ [{| state := suspended; sampleRate := dr;
                     destination := length ns |}])
          (ns ++ [{| context := length cs; kind := Destination |};
                  {| context := length cs; kind := Gain 0.5 None |}])
          (es ++ [{| from := 1 + length ns; output := 0;
                     to := node_input (length ns) 0 |}])
          rc dr).
Proof.
  unfold init.
  eapply bind_step.
  { instantiate (1 := St e
      (cs ++ [{| state := suspended; sampleRate := dr;
                 destination := length ns |}])
      (ns ++ [{| context := length cs; kind := Destination |}]) es rc dr).
    instantiate (1 := length cs). reflexivity. }
  tidy. step. unfold createGain.
  rewrite <- (app_nil_r es) at 1.
  eapply bind_step.
  { apply (create_eval _ _ ns [_]). }
  tidy. step.
  eapply bind_step.
  { apply the_context_eval. apply list_lookup_middle. reflexivity. }
  tidy. cbn [destination].
  etransitivity; [repeat step|reflexivity].
Qed.

Lemma try_stop_eval e cs ns es rc dr n :
  try_ (stop_node n) (St e cs ns es rc dr)
  = Return tt (St e cs (quiet n ns) es rc dr).
Proof.
  unfold try_, stop_node, node_playback, the_world, assign, update_world,
    quiet, St.
  unfold mbind at 1. unfold M_bind, bind. cbn [world nodes].
  destruct (ns !! n ≫= λ x, playback (kind x)) as [[| |]|]; reflexivity.
Qed.

Lemma release_eval (field : Engine → option nat) set e cs ns es rc dr :
  release field set (St e cs ns es rc dr)
  = Return tt
      (St (match field e with Some _ => set None e | None => e end)
          cs (quiet_opt (field e) ns) es rc dr).
Proof.
  unfold release. eapply bind_step; [apply get_eval|].
  destruct (field e) as [n|]; [|reflexivity].
  eapply bind_step; [apply try_stop_eval|]. reflexivity.
Qed.

Lemma stop_eval e cs ns es rc dr :
  stop (St e cs ns es rc dr)
  = Return tt (St (released e) cs (quiet_all e ns) es rc dr).
Proof.
  unfold stop. destruct e as [c0 mg bl br io il am pl].
  eapply bind_step; [apply update_this_eval|].
  do 4 (eapply bind_step; [apply release_eval|]).
  rewrite release_eval. unfold quiet_all, released. cbn.
  by destruct am, bl, br, io, il.
Qed.

Lemma length_quiet n ns : length (quiet n ns) = length ns.
Proof.
  unfold quiet.
  destruct (ns !! n ≫= _) as [[| |]|]; by rewrite ?length_alter.
Qed.

Lemma length_quiet_all e ns : length (quiet_all e ns) = length ns.
Proof.
  unfold quiet_all, quiet_opt.
  destruct (isochronicLFO e), (isochronicOsc e), (binauralRight e),
    (binauralLeft e), (ambientSource e); by rewrite ?length_quiet.
Qed.

(** The three layers, one after the other, as far as the setters let
    [play] go. *)
Lemma layers_eval e cs ns es rc dr c x g config t :
  cs !! c = Some x → masterGain e = Some g → ctx e = Some c →
  (ambient_pad c t ≫= λ _, binaural_beats c config t
     ≫= λ _, isochronic_tones c config t)
    (St (set_isPlaying true (released e)) cs ns es rc dr)
  = finish (reach config)
      (St (holding (reach config) config c g (length ns)) cs
          (ns ++ built_nodes (reach config) config c (sampleRate x) rc t)
          (es ++ built_edges (reach config) config (length ns) g)
          (rc + 2 * (sampleRate x * 5))%N dr).
Proof.
  intros Hx Hg Hc. destruct e as [c0 mg bl br io il am pl].
  simpl in Hg, Hc. subst c0 mg.
  eapply bind_step; [by eapply ambient_pad_eval|].
  unfold reach.
  destruct (float32 (baseFreq config)) eqn:Hl.
  2:{ erewrite bind_throw; [|by apply binaural_beats_left].
      cbn [finish holding built_nodes built_edges].
      rewrite !length_app, <- !app_assoc. cbn [length ambient_nodes].
      by replace (1 + (length ns + 5)) with (6 + length ns) by lia. }
  destruct (float32 (baseFreq config + binauralFreq config)) eqn:Hr.
  2:{ erewrite bind_throw; [|by apply binaural_beats_right].
      cbn [finish holding built_nodes built_edges].
      rewrite !length_app, <- !app_assoc. cbn [length ambient_nodes].
      replace (1 + (length ns + 5)) with (6 + length ns) by lia.
      by replace (2 + (length ns + 5)) with (7 + length ns) by lia. }
  eapply bind_step; [by eapply binaural_beats_eval|].
  destruct (isochronic config) eqn:Hi;
    [destruct (float32 (binauralFreq config)) eqn:Hb|].
  - erewrite isochronic_tones_eval by done.
    cbn [finish holding built_nodes built_edges].
    unfold layer_nodes, layer_edges, playing.
    rewrite !length_app, <- !app_assoc.
    cbn [length ambient_nodes binaural_nodes].
    replace (length ns + 5) with (5 + length ns) by lia.
    replace (5 + length ns + 4) with (9 + length ns) by lia.
    by rewrite Hi.
  - erewrite isochronic_tones_lfo; [|exact Hx|done|done].
    cbn [finish holding built_nodes built_edges].
    rewrite !length_app, <- !app_assoc.
    cbn [length ambient_nodes binaural_nodes].
    replace (length ns + 5) with (5 + length ns) by lia.
    by replace (5 + length ns + 4) with (9 + length ns) by lia.
  - erewrite isochronic_tones_eval by (by rewrite ?Hi).
    cbn [finish holding built_nodes built_edges].
    unfold layer_nodes, layer_edges, playing.
    rewrite !length_app, <- !app_assoc.
    cbn [length ambient_nodes binaural_nodes].
    replace (length ns + 5) with (5 + length ns) by lia.
    replace (5 + length ns + 4) with (9 + length ns) by lia.
    by rewrite Hi.
Qed.

Lemma reach_playable config : reach config = whole ↔ playable config = true.
Proof.
  unfold reach, playable.
  destruct (float32 (baseFreq config)),
    (float32 (baseFreq config + binauralFreq config)),
    (isochronic config), (float32 (binauralFreq config)); by cbn.
Qed.

Lemma finish_returns config s :
  returns (finish (reach config) s) = playable config.
Proof.
  unfold reach, playable.
  destruct (float32 (baseFreq config)),
    (float32 (baseFreq config + binauralFreq config)),
    (isochronic config), (float32 (binauralFreq config)); by cbn.
Qed.

Lemma finish_state r s : state_of (finish r s) = s.
Proof. by destruct r. Qed.

Lemma resume_eval e cs ns es rc dr c :
  resume c (St e cs ns es rc dr)
  = Return tt (St e (alter (set_state running) c cs) ns es rc dr).
Proof. reflexivity. Qed.

Lemma alter_last {A} (f : A → A) (l : list A) (x : A) :
  alter f (length l) (l ++ [x]) = l ++ [f x].
Proof.
  rewrite alter_app_r_alt by lia. by rewrite Nat.sub_diag.
Qed.

(** [play] on an engine that holds no context: a context and a master gain
    are created, then the layers. *)
Lemma play_new_context e cs ns es rc dr config t :
  ctx e = None →
  play config t (St e cs ns es rc dr)
  = finish (reach config)
      (St (holding (reach config) config (length cs) (1 + length ns)
             (2 + length ns))
          (cs ++ [{| state := running; sampleRate := dr;
                     destination := length ns |}])
          (quiet_all e
             (ns ++ [{| context := length cs; kind := Destination |};
                     {| context := length cs; kind := Gain 0.5 None |}])
           ++ built_nodes (reach config) config (length cs) dr rc t)
          ((es ++ [{| from := 1 + length ns; output := 0;
                      to := node_input (length ns) 0 |}])
           ++ built_edges (reach config) config (2 + length ns)
                (1 + length ns))
          (rc + 2 * (dr * 5))%N dr).
Proof.
  intros Hc. unfold play.
  eapply bind_step; [apply get_eval|]. rewrite Hc.
  eapply bind_step; [apply init_eval|].
  eapply bind_step; [apply get_eval|].
  destruct e as [c0 mg bl br io il am pl]. simpl in Hc. subst c0. tidy.
  eapply bind_step.
  { eapply bind_step.
    - apply the_context_eval. apply list_lookup_middle. reflexivity.
    - cbn [state]. apply resume_eval. }
  rewrite alter_last. cbn [set_state state sampleRate destination].
  eapply bind_step; [apply stop_eval|].
  eapply bind_step; [apply update_this_eval|].
  eapply bind_step; [apply get_eval|]. cbn [released ctx].
  eapply bind_step; [apply nonnull_eval|].
  erewrite layers_eval;
    [ | apply list_lookup_middle; reflexivity | reflexivity | reflexivity ].
  rewrite length_quiet_all, length_app. cbn [length sampleRate masterGain].
  replace (length ns + 2) with (2 + length ns) by lia.
  reflexivity.
Qed.

(** [play] on an engine that holds a context: the sources it holds are
    stopped, then the layers are built again on the same master gain. *)
Lemma play_same_context e cs ns es rc dr config t c x g :
  ctx e = Some c → cs !! c = Some x → masterGain e = Some g →
  play config t (St e cs ns es rc dr)
  = finish (reach config)
      (St (holding (reach config) config c g (length ns))
          (match state x with
           | suspended => alter (set_state running) c cs
           | _ => cs
           end)
          (quiet_all e ns
           ++ built_nodes (reach config) config c (sampleRate x) rc t)
          (es ++ built_edges (reach config) config (length ns) g)
          (rc + 2 * (sampleRate x * 5))%N dr).
Proof.
  intros Hc Hx Hg. unfold play.
  eapply bind_step; [apply get_eval|]. rewrite Hc.
  eapply bind_step; [apply ret_eval|].
  eapply bind_step; [apply get_eval|]. rewrite Hc.
  set (cs' := match state x with
              | suspended => alter (set_state running) c cs
              | _ => cs
              end).
  assert (Hx' : ∃ x', cs' !! c = Some x' ∧ sampleRate x' = sampleRate x).
  { unfold cs'. destruct (state x); eauto.
    exists (set_state running x). split; [|done].
    by rewrite list_lookup_alter_eq, Hx. }
  destruct Hx' as (x' & Hx' & Hrate).
  eapply bind_step.
  { eapply bind_step; [by apply the_context_eval|].
    instantiate (1 := St e cs' ns es rc dr). instantiate (1 := tt).
    unfold cs'. destruct (state x); reflexivity. }
  eapply bind_step; [apply stop_eval|].
  eapply bind_step; [apply update_this_eval|].
  eapply bind_step; [apply get_eval|].
  replace (ctx (set_isPlaying true (released e))) with (Some c)
    by (by destruct e; simpl in *; subst).
  eapply bind_step; [apply nonnull_eval|].
  erewrite layers_eval; [ | exact Hx' | exact Hg | exact Hc ].
  by rewrite length_quiet_all, Hrate.
Qed.

Lemma setVolume_eval e cs ns es rc dr v now :
  setVolume v now (St e cs ns es rc dr)
  = match masterGain e with
    | None => Return tt (St e cs ns es rc dr)
    | Some g =>
        match ctx e with
        | None => Throw TypeError (St e cs ns es rc dr)
        | Some _ =>
            if float32 v then
              Return tt
                (St e cs
                   (alter (λ x, {| context := context x;
                                   kind := gain_target v now 0.1 (kind x) |})
                      g ns) es rc dr)
            else Throw TypeError (St e cs ns es rc dr)
        end
    end.
Proof.
  unfold setVolume. eapply bind_step; [apply get_eval|].
  destruct (masterGain e) as [g|]; [|reflexivity].
  eapply bind_step; [apply get_eval|].
  destruct (ctx e); [|reflexivity].
  unfold setTargetAtTime. cbn. by destruct (float32 v).
Qed.

Lemma destroy_eval e cs ns es rc dr :
  destroy (St e cs ns es rc dr)
  = Return tt
      (St (set_ctx None (released e))
          (match ctx e with
           | Some c => alter (set_state closed) c cs
           | None => cs
           end)
          (quiet_all e ns) es rc dr).
Proof.
  unfold destroy. eapply bind_step; [apply stop_eval|].
  eapply bind_step; [apply get_eval|].
  destruct e as [[c|] mg bl br io il am pl]; reflexivity.
Qed.

Lemma state_parts s :
  s = St (this s) (contexts (world s)) (nodes (world s))
         (connections (world s)) (randomCalls (world s))
         (deviceRate (world s)).
Proof. by destruct s as [e []]. Qed.
Ltac expose :=
  unfold St;
  cbn [state_of this world nodes connections contexts randomCalls
       deviceRate playing released set_ctx ctx masterGain binauralLeft
       binauralRight isochronicOsc isochronicLFO ambientSource isPlaying].

(** *** [ready] is kept by every method *)

Lemma built_edges_bound r config n g e c rate rc t :
  e ∈ built_edges r config n g → g < n →
  from e < n + length (built_nodes r config c rate rc t) ∧
  port_node (to e) < n + length (built_nodes r config c rate rc t).
Proof.
  intros He Hg.
  destruct r; cbn [built_edges built_nodes] in *;
    unfold layer_edges, isochronic_edges, layer_nodes, isochronic_nodes in *;
    try destruct (isochronic config); cbn in He |- *;
    repeat (apply elem_of_cons in He as [-> | He]; [simpl; lia|]);
    by apply elem_of_nil in He.
Qed.

Lemma holding_context r config c g n : ctx (holding r config c g n) = Some c.
Proof. by destruct r. Qed.

Lemma holding_masterGain r config c g n :
  masterGain (holding r config c g n) = Some g.
Proof. by destruct r. Qed.

Lemma ready_play s config t : ready s → ready (state_of (play config t s)).
Proof.
  intros (Hedges & Hgain & Hctx). rewrite (state_parts s).
  destruct s as [e [cs ns es rc dr]]. cbn [this world contexts nodes
    connections randomCalls deviceRate] in *.
  destruct (ctx e) as [c|] eqn:Hc.
  - destruct (Hctx c eq_refl) as [[x Hx] [g Hg]].
    rewrite (play_same_context _ _ _ _ _ _ _ _ c x g), finish_state by done.
    unfold ready. expose.
    rewrite holding_context, holding_masterGain.
    rewrite length_app, length_quiet_all.
    split_and!.
    + intros ed [Hin|Hin]%elem_of_app.
      * destruct (Hedges _ Hin). lia.
      * eapply built_edges_bound; eauto.
    + intros g' [= <-]. specialize (Hgain _ Hg). lia.
    + intros c' [= <-]. split; [|eauto].
      destruct (state x); eauto.
      rewrite list_lookup_alter_eq, Hx. eauto.
  - rewrite play_new_context, finish_state by done.
    unfold ready. expose.
    rewrite holding_context, holding_masterGain.
    rewrite length_app, length_quiet_all, length_app.
    cbn [length].
    replace (length ns + 2) with (2 + length ns) by lia.
    split_and!.
    + intros ed [[Hin|Hin]%elem_of_app|Hin]%elem_of_app.
      * destruct (Hedges _ Hin). lia.
      * apply list_elem_of_singleton in Hin as ->. simpl. lia.
      * eapply built_edges_bound; eauto.
    + intros g' [= <-]. lia.
    + intros c' [= <-]. split; [|eauto].
      rewrite list_lookup_middle; eauto.
Qed.

Lemma ready_stop s : ready s → ready (state_of (stop s)).
Proof.
  intros (Hedges & Hgain & Hctx). rewrite (state_parts s), stop_eval.
  destruct s as [e [cs ns es rc dr]]. unfold ready. expose.
  rewrite length_quiet_all. by destruct e.
Qed.

Lemma ready_destroy s : ready s → ready (state_of (destroy s)).
Proof.
  intros (Hedges & Hgain & Hctx). rewrite (state_parts s), destroy_eval.
  destruct s as [e [cs ns es rc dr]]. unfold ready. expose.
  rewrite length_quiet_all. by destruct e.
Qed.

Lemma ready_setVolume s v now : ready s → ready (state_of (setVolume v now s)).
Proof.
  intros Hs. rewrite (state_parts s), setVolume_eval.
  destruct s as [e [cs ns es rc dr]]. expose.
  destruct (masterGain e) as [g|] eqn:Hg; [|exact Hs].
  destruct (ctx e) as [c|] eqn:Hc; [|exact Hs].
  destruct (float32 v); [|exact Hs].
  destruct Hs as (Hedges & Hgain & Hctx). unfold ready in *.
  cbn [state_of this world nodes connections contexts] in *.
  rewrite length_alter. by rewrite Hg, Hc in *.
Qed.

Lemma ready_new rate : ready (new_engine rate).
Proof. unfold ready. expose. split_and!; [|done..]. by intros e ?%elem_of_nil. Qed.

Lemma reachable_ready s : reachable s → ready s.
Proof.
  induction 1; auto using ready_new, ready_play, ready_setVolume,
    ready_stop, ready_destroy.
Qed.

(** *** Reading connections *)







(** From a state the methods keep to, the state [play] leaves is the state
    after [stop] (and after [init], on an engine that holds no context)
    with, on top, the nodes and connections it has built when it returns
    or throws. *)
Lemma play_shape s config t :
  ready s →
  ∃ c g cs ns es rate rc,
    play config t s
    = finish (reach config)
        (St (holding (reach config) config c g (length ns)) cs
            (ns ++ built_nodes (reach config) config c rate
                     (randomCalls (world s)) t)
            (es ++ built_edges (reach config) config (length ns) g) rc
            (deviceRate (world s))) ∧
    g < length ns ∧
    (∀ x, x ∈ es → from x < length ns ∧ port_node (to x) < length ns) ∧
    length (nodes (world s)) ≤ length ns ∧
    ∃ x, cs !! c = Some x ∧ sampleRate x = rate ∧ state x ≠ suspended.
Proof.
  intros (Hedges & Hgain & Hctx). rewrite (state_parts s).
  destruct s as [e [cs ns es rc dr]].
  cbn [this world contexts nodes connections randomCalls deviceRate] in *.
  destruct (ctx e) as [c|] eqn:Hc.
  - destruct (Hctx c eq_refl) as [[x Hx] [g Hg]].
    rewrite (play_same_context _ _ _ _ _ _ _ _ c x g) by done.
    eexists c, g, _, (quiet_all e ns), es, _, _.
    rewrite length_quiet_all. split; [reflexivity|].
    split_and!; [by apply Hgain | done | done |].
    destruct (state x) eqn:Hst.
    + exists (set_state running x).
      rewrite list_lookup_alter_eq, Hx. by split_and!.
    + exists x. rewrite Hst. by split_and!.
    + exists x. rewrite Hst. by split_and!.
  - rewrite play_new_context by done.
    eexists _, _, _,
      (quiet_all e (ns ++ [{| context := length cs; kind := Destination |};
                           {| context := length cs; kind := Gain 0.5 None |}])),
      _, _, _.
    rewrite length_quiet_all, length_app. cbn [length].
    replace (length ns + 2) with (2 + length ns) by lia.
    split; [reflexivity|]. split_and!; [lia| |simpl; lia|].
    + intros x [Hin|Hin]%elem_of_app.
      * destruct (Hedges _ Hin). lia.
      * apply list_elem_of_singleton in Hin as ->. simpl. lia.
    + eexists. rewrite list_lookup_middle by done. by split_and!.
Qed.

Lemma play_whole config :
  playable config = true →
  reach config = whole.
Proof. apply reach_playable. Qed.






(** *** The master gain *)

(** [stop] leaves the nodes that are not sources as they are. *)
Lemma quiet_keeps n ns i x :
  ns !! i = Some x → playback (kind x) = None → quiet n ns !! i = Some x.
Proof.
  intros Hx Hp. unfold quiet.
  destruct (ns !! n ≫= _) as [[| |]|] eqn:E; try done;
    (destruct (decide (n = i)) as [->|Hne];
     [ rewrite Hx in E; simpl in E; congruence
     | by rewrite list_lookup_alter_ne ]).
Qed.

Lemma quiet_all_keeps e ns i x :
  ns !! i = Some x → playback (kind x) = None →
  quiet_all e ns !! i = Some x.
Proof.
  intros Hx Hp. unfold quiet_all, quiet_opt.
  destruct (isochronicLFO e), (isochronicOsc e), (binauralRight e),
    (binauralLeft e), (ambientSource e);
    repeat (apply quiet_keeps; [|done]); done.
Qed.

(** C10 (setVolume before the first play). On an engine that holds neither
    a context nor a master gain, [setVolume(v)] returns without an error and
    leaves the state as it was, so a later [play] does what it does without
    that call; the master gain [play] then creates has the value 0.5 and no
    transition towards [v] scheduled on it.  This is so for every
    configuration: [play] returns when the setters accept the three
    frequencies of the configuration, and when one of them throws the
    master gain has been made before. *)
Theorem setVolume_before_play s v now config t :
  ctx (this s) = None → masterGain (this s) = None →
  setVolume v now s = Return tt s ∧
  (setVolume v now ≫= λ _, play config t) s = play config t s ∧
  returns (play config t s) = playable config ∧
  ∃ s' g, s' = state_of (play config t s) ∧
    (playable config = true → play config t s = Return tt s') ∧
    masterGain (this s') = Some g ∧
    node_kind g s' = Some (Gain 0.5 None).
Proof.
  intros Hc Hg.
  assert (Hv : setVolume v now s = Return tt s).
  { rewrite (state_parts s), setVolume_eval. by rewrite Hg. }
  split; [exact Hv|]. split.
  { unfold mbind, M_bind, bind. by rewrite Hv. }
  rewrite (state_parts s), play_new_context by done.
  split; [apply finish_returns|].
  eexists _, _. split; [reflexivity|]. rewrite finish_state. split_and!.
  - intros Hp. by rewrite (play_whole config Hp).
  - unfold St. cbn [this]. apply holding_masterGain.
  - unfold node_kind, St. cbn [world nodes].
    rewrite (lookup_app_l_Some _ _ _
      {| context := length (contexts (world s)); kind := Gain 0.5 None |});
      [reflexivity|].
    apply quiet_all_keeps; [|reflexivity].
    rewrite lookup_app_r by lia.
    by replace (1 + _ - _) with 1 by lia.
Qed.

Lemma setVolume_before_play_witness :
  let s := new_engine 48000 in
  let config := {| binauralFreq := 10; baseFreq := 200; isochronic := false;
                   theme := "forest" |} in
  (ctx (this s) = None ∧ masterGain (this s) = None) ∧
  setVolume 0.3 0 s = Return tt s ∧
  ∃ s', play config 0 s = Return tt s' ∧
    masterGain (this s') = Some 1 ∧
    node_kind 1 s' = Some (Gain 0.5 None).
Proof.
  intros s config. split; [done|].
  destruct (setVolume_before_play s 0.3 0 config 0 eq_refl eq_refl)
    as (Hv & _ & _ & s' & g & Hs' & Hplay & Hg & Hk).
  split; [exact Hv|]. exists s'. split; [by apply Hplay|].
  assert (g = 1) as ->.
  { rewrite Hs' in Hg. vm_compute in Hg. congruence. }
  by split.
Defined.

(** *** After [destroy] *)

(** C8 (after destroy), as the code has it. [destroy] performs [stop]:
    the nodes, the connections and the fields it leaves are those [stop]
    leaves, with no source held; then it closes the context the engine
    holds and drops it.  The engine keeps no mark of having been destroyed.
    On the engine it leaves, [stop] returns without an error and changes
    nothing; [play] does not fail for the [destroy]: it creates a new
    rendering context, running, with a new master gain, the engine plays
    again, and [play] returns whenever the setters accept the frequencies
    of the configuration; [setVolume] returns without an error and changes
    nothing when the engine has never played. *)
Theorem destroyed_engine_plays_again s config t v now :
  ∃ s0 s1, stop s = Return tt s0 ∧ destroy s = Return tt s1 ∧
    nodes (world s1) = nodes (world s0) ∧
    connections (world s1) = connections (world s0) ∧
    this s1 = set_ctx None (this s0) ∧
    held (this s1) = [] ∧
    isPlaying (this s1) = false ∧
    (∀ c x, ctx (this s) = Some c → contexts (world s) !! c = Some x →
       contexts (world s1) !! c = Some (set_state closed x)) ∧
    ctx (this s1) = None ∧
    stop s1 = Return tt s1 ∧
    (masterGain (this s) = None → setVolume v now s1 = Return tt s1) ∧
    returns (play config t s1) = playable config ∧
    ∃ s2 c x, s2 = state_of (play config t s1) ∧
      c = length (contexts (world s1)) ∧
      ctx (this s2) = Some c ∧
      contexts (world s2) !! c = Some x ∧ state x = running ∧
      masterGain (this s2) = Some (1 + length (nodes (world s1))) ∧
      isPlaying (this s2) = true.
Proof.
  rewrite (state_parts s), stop_eval, destroy_eval.
  destruct s as [e [cs ns es rc dr]].
  cbn [this world contexts nodes connections randomCalls deviceRate].
  eexists _, _. split; [reflexivity|]. split; [reflexivity|].
  unfold St at 1 2 3 4 5 6 7 8.
  cbn [this world contexts nodes connections].
  split_and!; try done.
  - intros c x Hc Hx. unfold St in *. cbn [this world contexts] in *.
    by rewrite Hc, list_lookup_alter_eq, Hx.
  - intros Hg. rewrite setVolume_eval. by destruct e; simpl in *; subst.
  - rewrite play_new_context by (by destruct e). apply finish_returns.
  - rewrite play_new_context by (by destruct e).
    eexists _, _, _. split; [reflexivity|]. rewrite finish_state.
    unfold St. cbn [this world contexts nodes].
    rewrite holding_context, holding_masterGain.
    split; [reflexivity|]. split; [reflexivity|].
    rewrite list_lookup_middle by done. split_and!; try done.
    by destruct (reach config).
Qed.

(** C8, as stated, fails: after [play] and [destroy] on a new engine,
    [stop] returns and changes nothing, and [play] returns with a second
    rendering context. *)
Lemma destroyed_engine_does_not_fail :
  let config := {| binauralFreq := 10; baseFreq := 200; isochronic := true;
                   theme := "forest" |} in
  let s := state_of (destroy (state_of (play config 0 (new_engine 48000)))) in
  ctx (this s) = None ∧
  stop s = Return tt s ∧
  returns (play config 1 s) = true ∧
  ctx (this (state_of (play config 1 s))) = Some 1 ∧
  length (contexts (world (state_of (play config 1 s)))) = 2.
Proof. by vm_compute. Qed.

(** *** Repeated [play] *)

(** The first [play] of an engine. *)
Lemma first_play rate config t :
  play config t (new_engine rate)
  = finish (reach config)
      (St (holding (reach config) config 0 1 2)
          [{| state := running; sampleRate := rate; destination := 0 |}]
          ([ {| context := 0; kind := Destination |};
             {| context := 0; kind := Gain 0.5 None |} ]
           ++ built_nodes (reach config) config 0 rate 0 t)
          ([ {| from := 1; output := 0; to := node_input 0 0 |} ]
           ++ built_edges (reach config) config 2 1)
          (0 + 2 * (rate * 5))%N rate).
Proof.
  change (new_engine rate)
    with (St {| ctx := None; masterGain := None; binauralLeft := None;
                binauralRight := None; isochronicOsc := None;
                isochronicLFO := None; ambientSource := None;
                isPlaying := false |} [] [] [] 0 rate).
  by rewrite play_new_context.
Qed.

(** C4: the failing run. [play] twice on a new engine, whatever the two
    configurations and clock readings (the second [play] returns when the
    setters accept the frequencies of its configuration, and throws after
    the ambient pad otherwise). Node 4 is the filter LFO that the first
    [play] creates and starts; no field of the engine holds it, so the
    [stop] at the head of the second [play] does not reach it: after the
    second [play] it is still running, the only node of the first [play]
    that is, next to the filter LFO of the second [play]. *)
Theorem replay_leaves_filter_lfo_running rate config1 config2 t1 t2 :
  let s1 := state_of (play config1 t1 (new_engine rate)) in
  let s2 := state_of (play config2 t2 s1) in
  let n1 := length (nodes (world s1)) in
  let lfo := oscillatorFrequency rate 0.1 in
  node_kind 4 s1 = Some (Oscillator sine lfo (started t1)) ∧
  returns (play config2 t2 s1) = playable config2 ∧
  node_kind 4 s2 = Some (Oscillator sine lfo (started t1)) ∧
  node_kind (2 + n1) s2 = Some (Oscillator sine lfo (started t2)) ∧
  filter (λ n, n < n1) (running_nodes s2) = [4] ∧
  4 ∉ [ambientSource (this s2); binauralLeft (this s2);
        binauralRight (this s2); isochronicOsc (this s2);
        isochronicLFO (this s2)] ≫= option_list.
Proof.
  cbv zeta. rewrite first_play, finish_state.
  rewrite (play_same_context _ _ _ _ _ _ _ _ 0
    {| state := running; sampleRate := rate; destination := 0 |} 1);
    [|apply holding_context|reflexivity|apply holding_masterGain].
  rewrite finish_returns, finish_state.
  generalize (reach config1) (reach config2). intros r1 r2.
  destruct config1 as [b1 f1 i1 th1], config2 as [b2 f2 i2 th2].
  split_and!; try done;
    destruct r1, i1, r2, i2; vm_compute; try reflexivity;
    intros H; repeat (apply elem_of_cons in H as [H|H]; [discriminate H|]);
    by apply elem_of_nil in H.
Qed.

(** The same run with the numbers of a session: 48 kHz, a 10 Hz beat on
    200 Hz, played at 0 s and again at 7 s. *)
Lemma replay_running_nodes :
  let config := {| binauralFreq := 10; baseFreq := 200; isochronic := false;
                   theme := "forest" |} in
  let s1 := state_of (play config 0 (new_engine 48000)) in
  let s2 := state_of (play config 7 s1) in
  running_nodes s1 = [2; 4; 8; 9] ∧
  running_nodes s2 = [4; 11; 13; 17; 18].
Proof. by vm_compute. Qed.

(** *** The isochronic gain *)

(** C5: the failing run. [play] with the isochronic tone on, on a new
    engine. The gain of [isoGain] (node 13) has the value 0 and two inputs:
    the square LFO (node 12) directly, and the same LFO through
    [lfoGainNode] (node 14, gain 1.0); [isoGain] goes to the master gain
    (node 1) next to the levels of the two other layers.  At an instant at
    which the LFO is at [lfo] and the carrier at [carrier], the gain is
    [2 lfo] and [isoGain] emits [2 lfo carrier]: in the negative half of the
    square wave the gain is -2, not 0, and the carrier comes out inverted
    and doubled instead of silenced. *)
Theorem isochronic_gain_in_negative_half rate f b th t :
  let config := {| binauralFreq := b; baseFreq := f; isochronic := true;
                   theme := th |} in
  playable config = true →
  let s := state_of (play config t (new_engine rate)) in
  isochronicOsc (this s) = Some 11 ∧
  isochronicLFO (this s) = Some 12 ∧
  node_kind 11 s
    = Some (Oscillator sine (oscillatorFrequency rate 150) (started t)) ∧
  node_kind 12 s
    = Some (Oscillator square (oscillatorFrequency rate b) (started t)) ∧
  node_kind 13 s = Some (Gain 0 None) ∧
  node_kind 14 s = Some (Gain 1.0 None) ∧
  feeding (node_input 14 0) s = [12] ∧
  feeding (node_param 13 gain_param) s = [14; 12] ∧
  feeding (node_input 13 0) s = [11] ∧
  feeding (node_input 1 0) s = [6; 10; 13] ∧
  (∀ lfo carrier,
     (gain_control 2 (instant lfo carrier) s 13 == 2 * lfo)%Q ∧
     (emits 3 (instant lfo carrier) s 13 == 2 * lfo * carrier)%Q) ∧
  (gain_control 2 (instant (-1) 1) s 13 == -2)%Q ∧
  (emits 3 (instant (-1) 1) s 13 == -2)%Q.
Proof.
  intros config Hp s.
  assert (Hs : s = state_of (finish whole
    (St (holding whole config 0 1 2)
        [{| state := running; sampleRate := rate; destination := 0 |}]
        ([ {| context := 0; kind := Destination |};
           {| context := 0; kind := Gain 0.5 None |} ]
         ++ built_nodes whole config 0 rate 0 t)
        ([ {| from := 1; output := 0; to := node_input 0 0 |} ]
         ++ built_edges whole config 2 1)
        (0 + 2 * (rate * 5))%N rate))).
  { unfold s. by rewrite first_play, (play_whole config Hp). }
  clearbody s. subst s. clear Hp.
  set (s := state_of _).
  assert (K11 : node_kind 11 s
            = Some (Oscillator sine (oscillatorFrequency rate 150)
                      (started t))) by reflexivity.
  assert (K12 : node_kind 12 s
            = Some (Oscillator square (oscillatorFrequency rate b)
                      (started t))) by reflexivity.
  assert (K13 : node_kind 13 s = Some (Gain 0 None)) by (by vm_compute).
  assert (K14 : node_kind 14 s = Some (Gain 1.0 None)) by (by vm_compute).
  assert (F14 : feeding (node_input 14 0) s = [12]) by (by vm_compute).
  assert (P14 : feeding (node_param 14 gain_param) s = [])
    by (by vm_compute).
  assert (P13 : feeding (node_param 13 gain_param) s = [14; 12])
    by (by vm_compute).
  assert (F13 : feeding (node_input 13 0) s = [11]) by (by vm_compute).
  assert (Hsig : ∀ lfo carrier,
     (gain_control 2 (instant lfo carrier) s 13 == 2 * lfo)%Q ∧
     (emits 3 (instant lfo carrier) s 13 == 2 * lfo * carrier)%Q).
  { intros lfo carrier. unfold gain_control.
    cbn [emits]. rewrite K13, P13, F13.
    cbn [fmap list_fmap Qsum foldr emits].
    rewrite K11, K12, K14, F14, P14.
    cbn [fmap list_fmap Qsum foldr emits]. rewrite K12.
    cbn [instant Nat.eqb]. split; ring. }
  split_and!; try done; by vm_compute.
Qed.

(** A 10 Hz pulse on a 200 Hz beat at 48 kHz. *)
Lemma isochronic_gain_in_negative_half_witness :
  let config := {| binauralFreq := 10; baseFreq := 200; isochronic := true;
                   theme := "forest" |} in
  let s := state_of (play config 0 (new_engine 48000)) in
  playable config = true ∧
  node_kind 12 s = Some (Oscillator square 10 (started 0)) ∧
  feeding (node_param 13 gain_param) s = [14; 12] ∧
  (gain_control 2 (instant (-1) 1) s 13 == -2)%Q ∧
  (emits 3 (instant (-1) 1) s 13 == -2)%Q.
Proof.
  intros config s.
  assert (Hp : playable config = true) by reflexivity.
  split; [exact Hp|].
  destruct (isochronic_gain_in_negative_half 48000 200 10 "forest" 0 Hp)
    as (_ & _ & _ & K12 & _ & _ & _ & P13 & _ & _ & _ & G & E).
  split_and!; [exact K12 | exact P13 | exact G | exact E].
Defined.

(** With the isochronic tone off, [play] creates no node for it: the
    engine holds no isochronic oscillator and the master gain receives the
    levels of the ambient pad and of the binaural pair alone. *)
Lemma isochronic_off_builds_nothing rate f b th t :
  let config := {| binauralFreq := b; baseFreq := f; isochronic := false;
                   theme := th |} in
  playable config = true →
  let s := state_of (play config t (new_engine rate)) in
  isochronicOsc (this s) = None ∧
  isochronicLFO (this s) = None ∧
  length (nodes (world s)) = 11 ∧
  feeding (node_input 1 0) s = [6; 10].
Proof.
  intros config Hp s. unfold s.
  rewrite first_play, (play_whole config Hp). by vm_compute.
Qed.

End EngineFacts.

(* ===================================================================== *)
(** ** More on the playback scheduler                                    *)
(* ===================================================================== *)

Module SchedulerMore.
Import LiveSession SessionView.







(** *** No chunk is scheduled before it arrived *)

Lemma overtaken_interrupted msg now clock s calls :
  (clock <= now)%Q →
  overtaken clock {| session := s; awaiting := calls |} →
  overtaken now
    {| session := handle_interrupted msg now s; awaiting := calls |}.
Proof.
  intros Hle Hl c Hc. destruct (Hl c Hc) as [H1 H2]. cbn in *.
  split; [by apply Qle_trans with clock|].
  unfold handle_interrupted, interrupt.
  destruct (interrupted msg); [|done]. cbn.
  destruct (audioContextRef s); [|done]. by apply Qle_trans with clock.
Qed.

Lemma overtaken_act dec clock now l a :
  (∀ data b, dec data = Some b → (0 <= duration b)%Q) →
  overtaken clock l →
  match a with
  | Arrives _ t | Settles _ t => (clock <= t)%Q ∧ now = t
  | _ => now = clock
  end →
  overtaken now (act dec l a).
Proof.
  intros Hdur Hl Ha. destruct l as [s calls].
  destruct a as [|msg t|k t|h]; cbn [act session awaiting].
  - subst now. intros c Hc. exact (Hl c Hc).
  - destruct Ha as [Hle ->]. unfold onmessage_begin.
    destruct (inlineData msg) as [data|];
      [destruct (truthy data); [destruct (audioContextRef s)|]|];
      try (by apply (overtaken_interrupted msg t clock)).
    + intros c [Hc | ->%list_elem_of_singleton]%elem_of_app; cbn.
      * destruct (Hl c Hc) as [H1 H2]. cbn in H2. split.
        -- by apply Qle_trans with clock.
        -- apply Qle_trans with (nextStartTimeRef s); [done|].
           apply Q.le_max_l.
      * split; [apply Qle_refl | apply Q.le_max_r].
    + intros c Hc. destruct (Hl c Hc) as [H1 H2]. cbn in *.
      split; [by apply Qle_trans with clock | done].
  - destruct Ha as [Hle ->].
    destruct (calls !! k) as [c|] eqn:Hk.
    + cbn [session awaiting]. unfold onmessage_resume.
      assert (Hsub : ∀ x, x ∈ delete k calls → x ∈ calls).
      { intros x Hx. by eapply list_elem_of_delete_inv. }
      destruct (dec (payload c)) as [b|] eqn:Hb; cbn [fst].
      * apply (overtaken_interrupted _ t clock); [done|].
        intros x Hx. destruct (Hl x (Hsub x Hx)) as [H1 H2]. cbn in *.
        split; [done|]. specialize (Hdur _ _ Hb). lra.
      * intros x Hx. destruct (Hl x (Hsub x Hx)) as [H1 H2]. cbn in *.
        split; [by apply Qle_trans with clock | done].
    + intros c Hc. destruct (Hl c Hc) as [H1 H2].
      split; [by apply Qle_trans with clock | done].
  - subst now. intros c Hc. destruct (Hl c Hc) as [H1 H2]. by split.
Qed.

Lemma overtaken_exec dec acts : ∀ clock l,
  (∀ data b, dec data = Some b → (0 <= duration b)%Q) →
  timely clock acts → overtaken clock l →
  ∃ clock', overtaken clock' (exec dec acts l).
Proof.
  induction acts as [|a acts IH]; intros clock l Hdur Ht Hl; [eauto|].
  rewrite SchedulerFacts.exec_cons.
  destruct a as [|msg t|k t|h]; cbn [timely] in Ht.
  - apply (IH clock); [done..|]. by apply (overtaken_act dec clock).
  - destruct Ht as [Hle Ht]. apply (IH t); [done..|].
    by apply (overtaken_act dec clock).
  - destruct Ht as [Hle Ht]. apply (IH t); [done..|].
    by apply (overtaken_act dec clock).
  - apply (IH clock); [done..|]. by apply (overtaken_act dec clock).
Qed.

(** No chunk is scheduled before it arrived, whatever arrives, in whatever
    order the decodes settle, interruptions included: while the clock does
    not run backwards and no buffer has a negative duration, the start time
    handed to [source.start] for a chunk is at least the clock reading
    taken when that chunk arrived. *)
Theorem chunks_start_after_arrival dec s clock acts k c b now :
  (∀ data b, dec data = Some b → (0 <= duration b)%Q) →
  timely clock acts →
  let l := exec dec acts (idling s) in
  awaiting l !! k = Some c → dec (payload c) = Some b →
  ∃ start,
    startCalls (session (act dec l (Settles k now)))
    = startCalls (session l) ++ [(created (session l), start)] ∧
    (arrival c <= start)%Q.
Proof.
  intros Hdur Ht l Hk Hb.
  destruct (overtaken_exec dec acts clock (idling s) Hdur Ht) as [clock' Hl].
  { by intros x ?%elem_of_nil. }
  exists (nextStartTimeRef (session l)). split.
  - rewrite (SchedulerFacts.call_settles dec l k c now Hk), Hb.
    cbn [session]. by rewrite SchedulerFacts.startCalls_interrupted.
  - apply (Hl c). by eapply list_elem_of_lookup_2.
Qed.

Lemma pcm24k_duration data b : pcm24k data = Some b → (0 <= duration b)%Q.
Proof.
  unfold pcm24k. destruct (Nat.even _); [|done]. intros [= <-].
  unfold Qle. simpl. lia.
Qed.

(** A chunk arrives at 1 s and is played; an interruption comes at 2 s
    while the chunk that arrived just before it is still being decoded. *)
Lemma chunks_start_after_arrival_witness :
  let acts := [Opens; Arrives (chunk "abcd") 1; Settles 0 1;
               Arrives (chunk "efgh") (3 # 2); Arrives barge_in 2] in
  let l := exec pcm24k acts (idling mounted) in
  let c := {| message := chunk "efgh"; payload := "efgh";
              arrival := 3 # 2 |} in
  ((∀ data b, pcm24k data = Some b → (0 <= duration b)%Q) ∧
   timely 0 acts ∧ awaiting l !! 0 = Some c ∧
   pcm24k "efgh" = Some {| duration := 2 # 24000 |}) ∧
  ∃ start,
    startCalls (session (act pcm24k l (Settles 0 3)))
    = startCalls (session l) ++ [(created (session l), start)] ∧
    (arrival c <= start)%Q.
Proof.
  intros acts l c.
  assert (Ht : timely 0 acts).
  { simpl. repeat split; vm_compute; discriminate. }
  split; [split_and!; [exact pcm24k_duration | exact Ht | done..]|].
  exact (chunks_start_after_arrival pcm24k mounted 0 acts 0 c
    {| duration := 2 # 24000 |} 3 pcm24k_duration Ht eq_refl eq_refl).
Defined.

(** *** Bookkeeping of the sources *)






(** *** Completions that arrive late *)

Lemma set_delete_absent h l : h ∉ l → set_delete h l = l.
Proof.
  intros Hh. unfold set_delete. induction l as [|x l IH]; [done|].
  apply not_elem_of_cons in Hh as [Hne Hh].
  rewrite filter_cons_True by done. by rewrite IH.
Qed.

Lemma recent_interrupted rank msg now s calls :
  recent rank {| session := s; awaiting := calls |} →
  recent rank {| session := handle_interrupted msg now s; awaiting := calls |}.
Proof.
  unfold recent, handle_interrupted. destruct (interrupted msg); [|done].
  cbn. intros [Hc _]. split; [done|]. by intros x ?%elem_of_nil.
Qed.

Lemma recent_act dec rank l a : recent rank l → recent rank (act dec l a).
Proof.
  intros Hl. destruct l as [s calls].
  destruct a as [|msg t|k t|h]; cbn [act session awaiting].
  - exact Hl.
  - unfold onmessage_begin.
    destruct (inlineData msg) as [data|];
      [destruct (truthy data); [destruct (audioContextRef s)|]|];
      try (by apply recent_interrupted); exact Hl.
  - destruct (calls !! k) as [c|]; [|done]. cbn [session awaiting].
    unfold onmessage_resume. destruct (dec (payload c)) as [b|]; [|done].
    cbn [fst]. apply recent_interrupted.
    destruct Hl as [Hc Hset]. unfold recent. cbn in *.
    split; [lia|]. unfold set_add. case_decide; [done|].
    intros x [Hx | ->%list_elem_of_singleton]%elem_of_app; auto.
  - destruct Hl as [Hc Hset]. unfold recent. cbn in *.
    split; [done|]. intros x [_ Hx]%list_elem_of_filter. auto.
Qed.

Lemma recent_exec dec rank acts : ∀ l,
  recent rank l → recent rank (exec dec acts l).
Proof.
  induction acts as [|a acts IH]; intros l Hl; [done|].
  rewrite SchedulerFacts.exec_cons. by apply IH, recent_act.
Qed.

(** After an interruption, the completion event of a source made before it
    (one the interruption stopped, or one that had ended) never takes a
    source out of the set and moves neither the cursor nor the logs,
    whatever has arrived, settled or ended since; and it changes nothing at
    all when the set holds a source at that moment. *)
Theorem late_completion_ignored dec l h now acts :
  h < created (session l) →
  let l1 := act dec l (Arrives barge_in now) in
  let l2 := exec dec acts l1 in
  let l3 := act dec l2 (Completes h) in
  (h ∉ sourcesRef (session l2)) ∧
  sourcesRef (session l3) = sourcesRef (session l2) ∧
  nextStartTimeRef (session l3) = nextStartTimeRef (session l2) ∧
  startCalls (session l3) = startCalls (session l2) ∧
  stopCalls (session l3) = stopCalls (session l2) ∧
  awaiting l3 = awaiting l2 ∧
  (sourcesRef (session l2) ≠ [] → l3 = l2).
Proof.
  intros Hh l1 l2 l3.
  assert (H1 : recent (created (session l)) l1).
  { unfold recent, l1. cbn. split; [done|]. by intros x ?%elem_of_nil. }
  pose proof (recent_exec dec _ acts l1 H1) as [_ H2]. fold l2 in H2.
  assert (Hout : h ∉ sourcesRef (session l2)).
  { intros Hin. specialize (H2 h Hin). lia. }
  unfold l3. clearbody l2. clear l1 l3 H1 H2.
  destruct l2 as [s2 calls].
  cbn [act session awaiting onended sourcesRef nextStartTimeRef
    startCalls stopCalls] in *.
  rewrite (set_delete_absent _ _ Hout). split_and!; try done.
  intros Hne. f_equal.
  destruct s2 as [? ? set ? ? ? ? ? ? ? ?]. unfold onended.
  cbn [sourcesRef] in *. rewrite (set_delete_absent _ _ Hout).
  by destruct set.
Qed.

(** A source is playing when the interruption arrives at 2 s, and the next
    chunk was scheduled when the completion of the stopped source is
    delivered. *)
Lemma late_completion_ignored_witness :
  let l := exec pcm24k [Opens; Arrives (chunk "abcdefgh") 1; Settles 0 1]
             (idling mounted) in
  let acts := [Arrives (chunk "abcd") 3; Settles 0 3] in
  let l2 := exec pcm24k acts (act pcm24k l (Arrives barge_in 2)) in
  0 < created (session l) ∧
  sourcesRef (session l2) = [1] ∧
  act pcm24k l2 (Completes 0) = l2.
Proof.
  intros l acts l2.
  assert (H0 : 0 < created (session l)) by (simpl; lia).
  split; [exact H0|]. split; [reflexivity|].
  apply (late_completion_ignored pcm24k l 0 2 acts H0). by vm_compute.
Defined.

End SchedulerMore.

(* ===================================================================== *)
(** ** The countdown and the level meter                                 *)
(* ===================================================================== *)

Module SessionViewFacts.
Import LiveSession SessionView.

Lemma tick_running n e again :
  (1 < n)%N →
  tick again {| timeLeft := n; ticking := true; endCalls := e |}
  = {| timeLeft := n - 1; ticking := true; endCalls := e |}.
Proof.
  intros Hn. unfold tick, updater. cbn [ticking timeLeft].
  by replace (n <=? 1)%N with false by (symmetry; apply N.leb_gt; lia).
Qed.

Lemma countdown_snoc firings again c :
  countdown (firings ++ [again]) c = tick again (countdown firings c).
Proof. unfold countdown. by rewrite foldl_app. Qed.

Lemma countdown_before n firings :
  (N.of_nat (length firings) < n)%N →
  countdown firings (connected n)
  = {| timeLeft := n - N.of_nat (length firings); ticking := true;
       endCalls := 0 |}.
Proof.
  induction firings as [|again firings IH] using rev_ind; intros Hk.
  - unfold connected. simpl. by rewrite N.sub_0_r.
  - rewrite length_app in Hk. cbn [length] in Hk.
    rewrite countdown_snoc, IH by lia. rewrite tick_running by lia.
    rewrite length_app. cbn [length]. f_equal. lia.
Qed.

Lemma countdown_stopped firings t e :
  countdown firings {| timeLeft := t; ticking := false; endCalls := e |}
  = {| timeLeft := t; ticking := false; endCalls := e |}.
Proof. by induction firings as [|again firings IH]. Qed.

(** The countdown from [n >= 1] seconds: the first [n - 1] firings of the
    interval take one second off each and leave the session running; the
    [n]-th firing sets the time left to 0, clears the interval and calls
    [onEndSession], once for each run of the state updater at that firing
    (the call sits inside the updater: once when React runs the updater
    once, twice when it runs it again); no later firing changes anything,
    so no other firing calls [onEndSession] and the time left never goes
    below 0. *)
Theorem countdown_ends_at_zero n firings :
  (1 <= n)%N →
  countdown firings (connected n)
  = if (N.of_nat (length firings) <? n)%N
    then {| timeLeft := n - N.of_nat (length firings); ticking := true;
            endCalls := 0 |}
    else {| timeLeft := 0; ticking := false;
            endCalls := S (default 0 (firings !! (N.to_nat n - 1))) |}.
Proof.
  intros Hn. destruct (N.of_nat (length firings) <? n)%N eqn:E.
  - apply N.ltb_lt in E. by apply countdown_before.
  - apply N.ltb_ge in E.
    rewrite <- (take_drop (N.to_nat n - 1) firings) at 1.
    destruct (drop (N.to_nat n - 1) firings) as [|again rest] eqn:Hd.
    { apply (f_equal length) in Hd. rewrite length_drop in Hd.
      simpl in Hd. lia. }
    assert (Hat : firings !! (N.to_nat n - 1) = Some again).
    { rewrite <- (Nat.add_0_r (N.to_nat n - 1)), <- lookup_drop, Hd.
      reflexivity. }
    rewrite Hat. cbn [default id].
    change (take (N.to_nat n - 1) firings ++ again :: rest)
      with (take (N.to_nat n - 1) firings ++ [again] ++ rest).
    unfold countdown. rewrite !foldl_app.
    fold (countdown (take (N.to_nat n - 1) firings) (connected n)).
    rewrite countdown_before by (rewrite length_take; lia).
    rewrite length_take, Nat.min_l by lia.
    replace (n - N.of_nat (N.to_nat n - 1))%N with 1%N by lia.
    cbn [foldl]. unfold tick at 2.
    cbn [ticking timeLeft endCalls updater N.leb N.compare Pos.compare
         Pos.compare_cont Nat.add].
    apply countdown_stopped.
Qed.

Lemma countdown_ends_at_zero_witness :
  (1 <= 20 * 60)%N ∧
  countdown (replicate 1199 0) (connected (20 * 60))
    = {| timeLeft := 1; ticking := true; endCalls := 0 |} ∧
  countdown (replicate 1199 0 ++ [0; 0]) (connected (20 * 60))
    = {| timeLeft := 0; ticking := false; endCalls := 1 |} ∧
  countdown (replicate 1199 1 ++ [1; 1]) (connected (20 * 60))
    = {| timeLeft := 0; ticking := false; endCalls := 2 |}.
Proof.
  split; [lia|]. split_and!.
  - exact (countdown_ends_at_zero (20 * 60) (replicate 1199 0) ltac:(lia)).
  - exact (countdown_ends_at_zero (20 * 60) (replicate 1199 0 ++ [0; 0])
             ltac:(lia)).
  - exact (countdown_ends_at_zero (20 * 60) (replicate 1199 1 ++ [1; 1])
             ltac:(lia)).
Defined.

Lemma average_nonneg dataArray : (0 <= average dataArray)%Q.
Proof.
  unfold average, Qdiv. apply Qmult_le_0_compat.
  - unfold Qle. simpl. lia.
  - apply Qinv_le_0_compat. unfold Qle. simpl. lia.
Qed.

Lemma byte_sum_bound dataArray :
  (byte_sum dataArray <= 255 * N.of_nat (length dataArray))%N.
Proof.
  induction dataArray as [|b l IH]; simpl; [lia|].
  pose proof (Byte.to_N_bounded b). lia.
Qed.

(** The level handed to the visualizer is always between 0 and 1; it is 0
    unless an analyser exists and the state is speaking; and it is 1
    exactly when the mean of the frequency bytes is 128 or more. *)
Theorem volume_in_unit_range analyser state :
  (∀ dataArray, analyser = Some dataArray → dataArray ≠ []) →
  (0 <= poll_volume analyser state)%Q ∧
  (poll_volume analyser state <= 1)%Q ∧
  (state ≠ speaking → poll_volume analyser state = 0%Q) ∧
  (analyser = None → poll_volume analyser state = 0%Q) ∧
  (∀ dataArray, analyser = Some dataArray → state = speaking →
     (poll_volume analyser state == 1)%Q ↔
     (128 * N.of_nat (length dataArray) <= byte_sum dataArray)%N).
Proof.
  intros Hne. split_and!.
  - destruct analyser as [d|], state; simpl; try done.
    apply Q.min_glb; [done|].
    unfold Qdiv. apply Qmult_le_0_compat; [apply average_nonneg|done].
  - destruct analyser as [d|], state; simpl; try done.
    apply Q.le_min_l.
  - by destruct analyser as [d|], state.
  - by intros ->.
  - intros d -> ->. simpl.
    assert (Hlen : length d ≠ 0%nat).
    { specialize (Hne d eq_refl). by destruct d. }
    rewrite Q.min_l_iff.
    unfold average, Qdiv, Qle, Qmult, Qinv. simpl.
    destruct (Z.of_nat (length d)) as [|p|p] eqn:Ep; try lia.
    simpl. split; intros H; lia.
Qed.

Lemma volume_in_unit_range_witness :
  let quiet := [Byte.x00; Byte.x40; Byte.x10; Byte.x00] in
  let loud := [Byte.xff; Byte.xf0; Byte.x80; Byte.x90] in
  (∀ d, Some loud = Some d → d ≠ []) ∧
  (poll_volume (Some quiet) speaking == 5 # 32)%Q ∧
  (poll_volume (Some loud) speaking == 1)%Q ∧
  (poll_volume (Some loud) speaking <= 1)%Q.
Proof.
  intros quiet loud.
  assert (Hne : ∀ d, Some loud = Some d → d ≠ []) by (by intros d [= <-]).
  split; [exact Hne|]. split; [by vm_compute|]. split; [by vm_compute|].
  exact (proj1 (proj2 (volume_in_unit_range (Some loud) speaking Hne))).
Defined.

(** *** The clock face *)

Lemma two_digits (s : N) :
  (s < 60)%N →
  padStart 2 "0" (pretty s) = pretty (s / 10)%N +:+ pretty (s mod 10)%N.
Proof.
  intros Hs. destruct s as [|p]; [reflexivity|].
  do 6 (try (destruct p as [p|p|]; [| |by vm_compute]));
    try (exfalso; lia); by vm_compute.
Qed.

(** [formatTime] renders a whole number of seconds as the minutes, not
    padded, a colon, and the seconds left over in exactly two decimal
    digits, tens then units. *)
Theorem formatTime_two_digit_seconds (n : N) :
  formatTime n
  = pretty (n / 60)%N +:+ ":" +:+ pretty (n mod 60 / 10)%N
    +:+ pretty (n mod 10)%N.
Proof.
  unfold formatTime. cbv zeta.
  rewrite two_digits by (apply N.mod_lt; lia).
  replace ((n mod 60) mod 10)%N with (n mod 10)%N; [done|].
  change 60%N with (10 * 6)%N. rewrite N.Div0.mod_mul_r.
  rewrite N.mul_comm, N.Div0.mod_add. by rewrite N.Div0.mod_mod.
Qed.

End SessionViewFacts.

(* ===================================================================== *)
(** ** Properties of the application shell                               *)
(* ===================================================================== *)

Module AppFacts.
Import App.

Section Shell.

Context {SessionPlan : Type}.

Lemma planned_call (a : AppState SessionPlan) (c : Callback SessionPlan) :
  planned a → planned (call a c).
Proof. destruct c; unfold planned; simpl; intros H ?; try done; eauto. Qed.

Lemma planned_calls (cs : list (Callback SessionPlan)) :
  ∀ a : AppState SessionPlan, planned a → planned (calls cs a).
Proof.
  induction cs as [|c cs IH]; intros a Ha; [done|].
  apply IH. by apply planned_call.
Qed.

(** Whatever callbacks the children call and in whatever order, the shell
    shows exactly one view, never an empty page; it shows the live session
    exactly when the header carries its "Live Session" mark, and then with
    the plan, theme and voice of the last completed intake. *)
Theorem shell_shows_one_view (cs : list (Callback SessionPlan)) :
  let a := calls cs initial in
  ∃ r, main a = [r] ∧
    (live_mark a = true ↔ ∃ plan theme voice, r = LiveSession plan theme voice) ∧
    (∀ cs' plan theme voice,
       cs = cs' ++ [IntakeComplete plan theme voice] →
       r = LiveSession plan theme voice).
Proof.
  intros a.
  assert (Ha : planned a).
  { apply planned_calls. by unfold planned. }
  assert (Hlast : ∀ cs' plan theme voice,
    cs = cs' ++ [IntakeComplete plan theme voice] →
    a = handleIntakeComplete plan theme voice (calls cs' initial)).
  { intros cs' plan theme voice ->. unfold a, calls.
    by rewrite foldl_app. }
  unfold planned in Ha. unfold main, live_mark.
  destruct (currentView a) eqn:Hv.
  - exists Welcome. split; [done|]. split.
    + split; [done|]. by intros (? & ? & ? & ?).
    + intros cs' plan theme voice Hcs. apply Hlast in Hcs.
      rewrite Hcs in Hv. done.
  - exists Intake. split; [done|]. split.
    + split; [done|]. by intros (? & ? & ? & ?).
    + intros cs' plan theme voice Hcs. apply Hlast in Hcs.
      rewrite Hcs in Hv. done.
  - destruct (Ha eq_refl) as [plan Hp]. rewrite Hp.
    exists (LiveSession plan (sessionTheme a) (voiceName a)).
    split; [done|]. split.
    + split; eauto.
    + intros cs' plan' theme voice Hcs. apply Hlast in Hcs.
      rewrite Hcs in Hp |- *. simpl in *. congruence.
Qed.

End Shell.

End AppFacts.

(* ===================================================================== *)
(** ** Properties of the clean-up of the answer                          *)
(* ===================================================================== *)

Module PlanTextFacts.
Import PlanText.

Lemma trim_start_blank ws s : blank ws → trim_start (ws ++ s) = trim_start s.
Proof.
  induction 1 as [|c ws Hc _ IH]; [done|]. simpl. by rewrite Hc.
Qed.

Lemma trim_start_solid c s : white_space c = false → trim_start (c :: s) = c :: s.
Proof. intros Hc. simpl. by rewrite Hc. Qed.

Lemma blank_reverse ws : blank ws → blank (reverse ws).
Proof. unfold blank. by rewrite Forall_reverse. Qed.

Lemma trim_end_blank ws s : blank ws → trim_end (s ++ ws) = trim_end s.
Proof.
  intros Hws. unfold trim_end.
  by rewrite reverse_app, trim_start_blank by by apply blank_reverse.
Qed.

Lemma trim_end_solid c s : white_space c = false → trim_end (s ++ [c]) = s ++ [c].
Proof.
  intros Hc. unfold trim_end.
  rewrite reverse_app, reverse_singleton. cbn [app trim_start].
  by rewrite Hc, reverse_cons, reverse_involutive.
Qed.

Lemma after_prefix_app p s : after_prefix p (p ++ s) = Some s.
Proof. induction p as [|a p IH]; [done|]. simpl. by rewrite N.eqb_refl. Qed.

Lemma after_prefix_common p q s :
  after_prefix (p ++ q) (p ++ s) = after_prefix q s.
Proof. induction p as [|a p IH]; [done|]. simpl. by rewrite N.eqb_refl. Qed.

Lemma after_prefix_other a p c s : a ≠ c → after_prefix (a :: p) (c :: s) = None.
Proof. intros Hne. simpl. by rewrite (proj2 (N.eqb_neq a c)). Qed.

Lemma fence_solid : white_space 96%N = false.
Proof. reflexivity. Qed.

Ltac flat :=
  repeat first [rewrite <- app_assoc | progress cbn [app]]; reflexivity.

Lemma trim_end_closing s post :
  blank post → trim_end (s ++ fence ++ post) = s ++ fence.
Proof.
  intros Hpost.
  replace (s ++ fence ++ post) with ((s ++ fence) ++ post) by flat.
  rewrite trim_end_blank by done.
  replace (s ++ fence) with ((s ++ [96; 96]%N) ++ [96%N]) by (unfold fence; flat).
  by rewrite trim_end_solid.
Qed.

Lemma strip_tail_fence body c ws :
  white_space c = false → blank ws →
  strip_tail fence ((body ++ [c]) ++ ws ++ fence) = body ++ [c].
Proof.
  intros Hc Hws. unfold strip_tail.
  rewrite !reverse_app, <- !app_assoc, after_prefix_app.
  rewrite trim_start_blank by by apply blank_reverse.
  rewrite reverse_singleton. cbn [app].
  by rewrite trim_start_solid, reverse_cons, reverse_involutive.
Qed.

(** A fenced answer is unwrapped. Let the text be, between any white
    space, an opening fence (three backquotes, with or without [json]),
    white space, a body, white space and a closing fence; let the body
    start with a character that is neither white space, nor a backquote,
    nor [j], and end with a character that is not white space (as a JSON
    object or array does).  Then the clean-up returns the body, whole. *)
Theorem clean_unwraps_fence opening pre ws1 c body c' ws2 post :
  opening = fence_json ∨ opening = fence →
  blank pre → blank ws1 → blank ws2 → blank post →
  white_space c = false → c ≠ 96%N → c ≠ 106%N →
  white_space c' = false →
  clean (pre ++ opening ++ ws1 ++ (c :: body ++ [c']) ++ ws2 ++ fence ++ post)
  = c :: body ++ [c'].
Proof.
  intros Hop Hpre Hws1 Hws2 Hpost Hc Hq Hj Hc'. unfold clean, trim.
  rewrite trim_start_blank by done.
  assert (Hhead : ∀ s, trim_start (opening ++ s) = opening ++ s).
  { intros s. destruct Hop as [-> | ->]; apply trim_start_solid, fence_solid. }
  rewrite Hhead.
  match goal with
  | |- context [trim_end ?t] =>
      replace t
        with ((opening ++ ws1 ++ ((c :: body) ++ [c']) ++ ws2) ++ fence ++ post)
        by flat
  end.
  rewrite trim_end_closing by done.
  assert (Hbody : ∀ s,
    strip_head fence (strip_head fence_json (opening ++ ws1 ++ c :: s))
    = c :: s).
  { intros s. destruct Hop as [-> | ->].
    - unfold strip_head at 2. rewrite after_prefix_app.
      rewrite trim_start_blank, trim_start_solid by done.
      unfold strip_head, fence. by rewrite after_prefix_other.
    - assert (Hno : after_prefix fence_json (fence ++ ws1 ++ c :: s) = None).
      { unfold fence_json. rewrite after_prefix_common.
        destruct Hws1 as [|w ws1 Hw _].
        - by apply after_prefix_other.
        - apply after_prefix_other. intros <-. discriminate Hw. }
      unfold strip_head at 2. rewrite Hno.
      unfold strip_head. rewrite after_prefix_app.
      by rewrite trim_start_blank, trim_start_solid by done. }
  match goal with
  | |- context [strip_head fence_json ?t] =>
      replace t
        with (opening ++ ws1 ++ c :: (body ++ [c']) ++ ws2 ++ fence)
        by flat
  end.
  rewrite Hbody.
  change (c :: (body ++ [c']) ++ ws2 ++ fence)
    with (((c :: body) ++ [c']) ++ ws2 ++ fence).
  by rewrite strip_tail_fence.
Qed.

(** Two spaces, the [json] fence, a line feed, [{}], a line feed, the
    closing fence and a line feed. *)
Lemma clean_unwraps_fence_witness :
  (fence_json = fence_json ∨ fence_json = fence) ∧
  clean ([32; 32] ++ fence_json ++ [10] ++ [123; 125] ++ [10] ++ fence ++ [10])%N
  = [123; 125]%N.
Proof.
  split; [by left|].
  apply (clean_unwraps_fence fence_json [32; 32]%N [10]%N 123%N [] 125%N
           [10]%N [10]%N); try done; try (by left);
    repeat constructor.
Defined.

(** An answer without fences is only trimmed: a text that, between any
    white space, starts with a character that is neither white space nor a
    backquote and ends with one that is neither, comes out without the
    surrounding white space and otherwise unchanged. *)
Theorem clean_keeps_plain_text pre c body c' post :
  blank pre → blank post →
  white_space c = false → c ≠ 96%N →
  white_space c' = false → c' ≠ 96%N →
  clean (pre ++ (c :: body ++ [c']) ++ post) = c :: body ++ [c'].
Proof.
  intros Hpre Hpost Hc Hq Hc' Hq'. unfold clean, trim.
  rewrite trim_start_blank by done. cbn [app].
  rewrite trim_start_solid by done.
  change (c :: (body ++ [c']) ++ post) with (((c :: body) ++ [c']) ++ post).
  rewrite trim_end_blank, trim_end_solid by done.
  unfold strip_head, fence_json, fence. cbn [app].
  rewrite !after_prefix_other by done.
  change (c :: body ++ [c']) with ((c :: body) ++ [c']).
  unfold strip_tail. rewrite reverse_app, reverse_singleton.
  change (reverse [96; 96; 96]%N) with [96; 96; 96]%N.
  cbn [app]. by rewrite after_prefix_other.
Qed.

Lemma clean_keeps_plain_text_witness :
  blank [10; 9]%N ∧
  clean ([10; 9] ++ [91; 49; 93] ++ [32])%N = [91; 49; 93]%N.
Proof.
  split; [repeat constructor|].
  apply (clean_keeps_plain_text [10; 9]%N 91%N [49]%N 93%N [32]%N);
    try done; repeat constructor.
Defined.

End PlanTextFacts.

(* ===================================================================== *)
(** ** More on the noise buffer                                          *)
(* ===================================================================== *)

Module NoiseMore.
Import Noise NoiseFacts.

Lemma sample_range (prev r : Q) :
  (-1 <= prev)%Q → (prev <= 1)%Q → (0 <= r)%Q → (r < 1)%Q →
  (-1 <= snd (sample prev r))%Q ∧ (snd (sample prev r) < 1)%Q.
Proof.
  intros Hl Hu H0 H1. unfold sample, white. cbn [snd].
  split.
  - apply Qle_shift_div_l; [reflexivity|]. lra.
  - apply Qlt_shift_div_r; [reflexivity|]. lra.
Qed.

Lemma out_seq_range rnd k :
  (∀ i, i ≤ k → (0 <= rnd i)%Q ∧ (rnd i < 1)%Q) →
  (-1 <= out_seq rnd k)%Q ∧ (out_seq rnd k < 1)%Q.
Proof.
  induction k as [|k IH]; intros Hr.
  - destruct (Hr 0 (le_n _)). apply sample_range; lra.
  - destruct (Hr (S k) (le_n _)). destruct IH as [Hl Hu].
    { intros i Hi. apply Hr. lia. }
    cbn [out_seq]. apply sample_range; lra.
Qed.

(** With every draw of [Math.random()] in [0, 1), the running value of the
    noise loop never leaves [-1, 1), over both channels, and so every sample
    stored in the buffer, which is 3.5 times the running value, lies in
    [-3.5, 3.5). *)
Theorem noise_samples_bounded rnd n ch x :
  (∀ k, k < 2 * n → (0 <= rnd k)%Q ∧ (rnd k < 1)%Q) →
  ch ∈ noise_buffer rnd n → x ∈ ch →
  (-3.5 <= x)%Q ∧ (x < 3.5)%Q.
Proof.
  intros Hr Hch Hx. rewrite noise_buffer_run in Hch.
  assert (Hi : ∃ i, i < 2 * n ∧ x = (out_seq rnd i * 3.5)%Q).
  { apply elem_of_cons in Hch as [-> | Hch];
      [|apply list_elem_of_singleton in Hch as ->];
      apply list_elem_of_fmap in Hx as (i & -> & Hi);
      apply elem_of_seq in Hi; exists i; (split; [lia|done]). }
  destruct Hi as (i & Hi & ->).
  destruct (out_seq_range rnd i) as [Hl Hu].
  { intros j Hj. apply Hr. lia. }
  split; lra.
Qed.

Lemma noise_samples_bounded_witness :
  let rnd := λ k : nat, (1 # 4)%Q in
  let ch := fst (fill_channel rnd 2 0 0) in
  let x := (fst (sample 0 (1 # 4))) in
  (∀ k, k < 2 * 2 → (0 <= rnd k)%Q ∧ (rnd k < 1)%Q) ∧
  ch ∈ noise_buffer rnd 2 ∧ x ∈ ch ∧
  (-3.5 <= x)%Q ∧ (x < 3.5)%Q.
Proof.
  intros rnd ch x.
  assert (Hr : ∀ k, k < 2 * 2 → (0 <= rnd k)%Q ∧ (rnd k < 1)%Q).
  { intros k _. by split. }
  assert (Hch : ch ∈ noise_buffer rnd 2) by apply list_elem_of_here.
  assert (Hx : x ∈ ch) by apply list_elem_of_here.
  split; [exact Hr|]. split; [exact Hch|]. split; [exact Hx|].
  exact (noise_samples_bounded rnd 2 ch x Hr Hch Hx).
Defined.

End NoiseMore.

(* ===================================================================== *)
(** ** More on the Lyria engine                                          *)
(* ===================================================================== *)

Module EngineMore.
Import Lyria LyriaState EngineFacts.

(** *** What [stop] does to the nodes *)

Lemma quiet_other n ns i : i ≠ n → quiet n ns !! i = ns !! i.
Proof.
  intros Hne. unfold quiet.
  destruct (ns !! n ≫= _) as [[| |]|]; try done;
    by rewrite list_lookup_alter_ne.
Qed.

Lemma quiet_here n ns : running_at (quiet n ns) n = false.
Proof.
  unfold running_at, quiet.
  destruct (ns !! n) as [[c k]|] eqn:Hx; simpl; [|by rewrite Hx].
  destruct k as [|v tg|ty f [| |]|b lp [| |]|ty f q|i]; simpl;
    rewrite ?list_lookup_alter_eq, Hx; done.
Qed.

Lemma quiet_never_starts n ns i :
  running_at (quiet n ns) i = true → running_at ns i = true.
Proof.
  destruct (decide (i = n)) as [->|Hne].
  - by rewrite quiet_here.
  - unfold running_at. by rewrite quiet_other.
Qed.

Lemma quiet_opt_never_starts o ns i :
  running_at (quiet_opt o ns) i = true → running_at ns i = true.
Proof. destruct o; [apply quiet_never_starts|done]. Qed.

Lemma quiet_all_never_starts e ns i :
  running_at (quiet_all e ns) i = true → running_at ns i = true.
Proof.
  unfold quiet_all. intros H.
  by do 5 apply quiet_opt_never_starts in H.
Qed.

Lemma quiet_opt_here n ns : running_at (quiet_opt (Some n) ns) n = false.
Proof. apply quiet_here. Qed.

Lemma quiet_opt_stays o ns i :
  running_at ns i = false → running_at (quiet_opt o ns) i = false.
Proof.
  intros H. destruct (running_at (quiet_opt o ns) i) eqn:E; [|done].
  apply quiet_opt_never_starts in E. congruence.
Qed.

Lemma quiet_all_held e ns n :
  n ∈ held e → running_at (quiet_all e ns) n = false.
Proof.
  unfold held, quiet_all.
  destruct e as [c0 mg bl br io il am pl]. cbn.
  intros Hn.
  destruct am as [a|], bl as [b|], br as [r|], io as [o|], il as [l|];
    cbn in Hn;
    repeat (apply elem_of_cons in Hn as [-> | Hn];
            [repeat first [ apply quiet_opt_here
                          | apply quiet_opt_stays ] |]);
    by apply elem_of_nil in Hn.
Qed.

Lemma quiet_opt_other o ns i :
  (∀ n, o = Some n → i ≠ n) → quiet_opt o ns !! i = ns !! i.
Proof. destruct o as [n|]; [|done]. intros H. apply quiet_other. by apply H. Qed.

Lemma quiet_all_other e ns i :
  i ∉ held e → quiet_all e ns !! i = ns !! i.
Proof.
  unfold held, quiet_all.
  destruct e as [c0 mg bl br io il am pl].
  cbn [ambientSource binauralLeft binauralRight isochronicOsc isochronicLFO].
  intros Hi.
  destruct am as [a|], bl as [b|], br as [r|], io as [o|], il as [l|];
    cbn in Hi; cbn [quiet_opt];
    rewrite ?quiet_other; try done;
    intros ->; apply Hi; repeat first [ by left | right ].
Qed.

(** [stop] never throws, whatever the engine holds, even a node that was
    never started: it leaves the five node fields empty and [isPlaying]
    false, touches neither the context, the master gain nor any
    connection, and a second [stop] right after changes nothing. *)
Theorem stop_is_idempotent s :
  ∃ s', stop s = Return tt s' ∧
    stop s' = Return tt s' ∧
    held (this s') = [] ∧
    isPlaying (this s') = false ∧
    ctx (this s') = ctx (this s) ∧
    masterGain (this s') = masterGain (this s) ∧
    contexts (world s') = contexts (world s) ∧
    connections (world s') = connections (world s) ∧
    length (nodes (world s')) = length (nodes (world s)).
Proof.
  rewrite (state_parts s), stop_eval. eexists. split; [reflexivity|].
  rewrite stop_eval. destruct s as [e [cs ns es rc dr]].
  unfold St. cbn [this world contexts nodes connections].
  rewrite length_quiet_all. by destruct e.
Qed.

(** After [stop] no source the engine held is running, and every node it
    did not hold is exactly as before; [stop] starts nothing. *)
Theorem stop_halts_what_is_held s :
  let ns := nodes (world s) in
  let ns' := nodes (world (state_of (stop s))) in
  (∀ n, n ∈ held (this s) → running_at ns' n = false) ∧
  (∀ i, i ∉ held (this s) → ns' !! i = ns !! i) ∧
  (∀ i, running_at ns' i = true → running_at ns i = true).
Proof.
  rewrite (state_parts s), stop_eval. unfold St. cbn [state_of world nodes this].
  split_and!.
  - intros n Hn. by apply quiet_all_held.
  - intros i Hi. by apply quiet_all_other.
  - intros i. apply quiet_all_never_starts.
Qed.

(** *** The graph stays coherent *)

Lemma stage_refl x : stage x x.
Proof. by split. Qed.

Lemma stage_halted x : stage x (halted x).
Proof.
  split; [done|]. destruct x as [c k]. unfold halted. simpl.
  by destruct k.
Qed.

Lemma stage_trans x y z : stage x y → stage y z → stage x z.
Proof.
  intros [Hc1 Hk1] [Hc2 Hk2]. split; [congruence|].
  intros Hp. specialize (Hk1 Hp). subst y. auto.
Qed.

Lemma quiet_stage n ns i x :
  ns !! i = Some x → ∃ x', quiet n ns !! i = Some x' ∧ stage x x'.
Proof.
  intros Hx. unfold quiet.
  destruct (ns !! n ≫= _) as [[| |]|]; eauto using stage_refl;
    (destruct (decide (n = i)) as [->|Hne];
     [ rewrite list_lookup_alter_eq, Hx; eauto using stage_halted
     | rewrite list_lookup_alter_ne by done; eauto using stage_refl ]).
Qed.

Lemma quiet_opt_stage o ns i x :
  ns !! i = Some x → ∃ x', quiet_opt o ns !! i = Some x' ∧ stage x x'.
Proof. destruct o; [apply quiet_stage|eauto using stage_refl]. Qed.

Lemma quiet_all_stage e ns i x :
  ns !! i = Some x → ∃ x', quiet_all e ns !! i = Some x' ∧ stage x x'.
Proof.
  intros H0. unfold quiet_all.
  destruct (quiet_opt_stage (ambientSource e) _ _ _ H0) as (x1 & H1 & S1).
  destruct (quiet_opt_stage (binauralLeft e) _ _ _ H1) as (x2 & H2 & S2).
  destruct (quiet_opt_stage (binauralRight e) _ _ _ H2) as (x3 & H3 & S3).
  destruct (quiet_opt_stage (isochronicOsc e) _ _ _ H3) as (x4 & H4 & S4).
  destruct (quiet_opt_stage (isochronicLFO e) _ _ _ H4) as (x5 & H5 & S5).
  exists x5. split; [done|]. eauto using stage_trans.
Qed.

Lemma joined_moved ns ns' e :
  (∀ i x, ns !! i = Some x →
          ∃ x', ns' !! i = Some x' ∧ context x' = context x) →
  joined ns e → joined ns' e.
Proof.
  intros Hst (x & y & Hx & Hy & Hc).
  destruct (Hst _ _ Hx) as (x' & Hx' & Hcx).
  destruct (Hst _ _ Hy) as (y' & Hy' & Hcy).
  exists x', y'. split_and!; try done. congruence.
Qed.

Lemma joined_quiet_all e ns c : joined ns c → joined (quiet_all e ns) c.
Proof.
  apply joined_moved. intros i x Hx.
  destruct (quiet_all_stage e ns i x Hx) as (x' & Hx' & [Hc _]). eauto.
Qed.

Lemma joined_app ns ext e : joined ns e → joined (ns ++ ext) e.
Proof.
  intros (x & y & Hx & Hy & Hc). exists x, y.
  split_and!; try done; by apply lookup_app_l_Some.
Qed.

Lemma lookup_new {A} (base ext : list A) k :
  (base ++ ext) !! (k + length base) = ext !! k.
Proof.
  rewrite lookup_app_r by lia. f_equal. lia.
Qed.

Lemma built_context r config c rate rc t k x :
  built_nodes r config c rate rc t !! k = Some x → context x = c.
Proof.
  destruct r; cbn [built_nodes]; unfold layer_nodes, isochronic_nodes;
    try destruct (isochronic config); cbn;
    do 13 (destruct k as [|k]; [by intros [= <-]|]); done.
Qed.

Lemma built_edges_ends r config c rate rc t n g e :
  e ∈ built_edges r config n g →
  let len := length (built_nodes r config c rate rc t) in
  (∃ k, from e = k + n ∧ k < len) ∧
  (port_node (to e) = g ∨ ∃ k, port_node (to e) = k + n ∧ k < len).
Proof.
  intros He.
  destruct r; cbn [built_edges built_nodes] in *;
    unfold layer_edges, ambient_edges, binaural_edges, isochronic_edges,
      layer_nodes, isochronic_nodes in *;
    try destruct (isochronic config); cbn in He |- *;
    repeat (apply elem_of_cons in He as [-> | He];
      [ cbn [from to port_node]; split;
        [ match goal with
          | |- ∃ k, ?m = k + _ ∧ _ =>
              let j := above m in exists j; split; [reflexivity | lia]
          end
        | first [ by left
                | right;
                  match goal with
                  | |- ∃ k, ?m = k + _ ∧ _ =>
                      let j := above m in
                      exists j; split; [reflexivity | lia]
                  end ] ] |]);
    by apply elem_of_nil in He.
Qed.

Lemma built_joined r config c rate rc t base g y e :
  base !! g = Some y → context y = c →
  e ∈ built_edges r config (length base) g →
  joined (base ++ built_nodes r config c rate rc t) e.
Proof.
  intros Hg Hc He.
  assert (Hnew : ∀ k, k < length (built_nodes r config c rate rc t) →
    ∃ x, (base ++ built_nodes r config c rate rc t) !! (k + length base)
         = Some x ∧ context x = c).
  { intros k Hk.
    apply lookup_lt_is_Some in Hk as [x Hx].
    exists x. rewrite lookup_new. split; [done|].
    by eapply built_context. }
  assert (Hold : (base ++ built_nodes r config c rate rc t) !! g = Some y)
    by by apply lookup_app_l_Some.
  destruct (built_edges_ends r config c rate rc t _ _ _ He)
    as [(k & Hfrom & Hk) Hto].
  destruct (Hnew k Hk) as (x & Hx & Hcx). unfold joined. rewrite Hfrom.
  destruct Hto as [Hto | (k' & Hto & Hk')]; rewrite Hto.
  - exists x, y. split_and!; try done. congruence.
  - destruct (Hnew k' Hk') as (x' & Hx' & Hcx').
    exists x, x'. split_and!; try done. congruence.
Qed.

Lemma quiet_all_gain e ns g x v tg :
  ns !! g = Some x → kind x = Gain v tg → quiet_all e ns !! g = Some x.
Proof.
  intros Hx Hk. destruct (quiet_all_stage e ns g x Hx) as (x' & Hx' & [_ Hs]).
  rewrite Hx'. f_equal. apply Hs. by rewrite Hk.
Qed.

Lemma coherent_play s config t :
  coherent s → coherent (state_of (play config t s)).
Proof.
  intros (Hedges & Hgain & Hctx). rewrite (state_parts s).
  destruct s as [e [cs ns es rc dr]].
  cbn [this world contexts nodes connections randomCalls deviceRate] in *.
  destruct (ctx e) as [c|] eqn:Hc.
  - destruct (Hctx c eq_refl) as ([x Hx] & g & y & Hg & Hy & Hcy).
    destruct (Hgain g Hg) as (y' & v & tg & Hy' & Hk).
    assert (y' = y) by congruence. subst y'.
    rewrite (play_same_context _ _ _ _ _ _ _ _ c x g), finish_state by done.
    pose proof (quiet_all_gain e ns g y v tg Hy Hk) as Hq.
    unfold coherent, St.
    cbn [state_of this world nodes connections contexts].
    rewrite holding_context, holding_masterGain.
    split_and!.
    + intros ed [Hin|Hin]%elem_of_app.
      * by apply joined_app, joined_quiet_all, Hedges.
      * apply (built_joined _ _ _ _ _ _ _ g y); try done.
        by rewrite length_quiet_all.
    + intros g' [= <-]. exists y, v, tg. split; [|done].
      by apply lookup_app_l_Some.
    + intros c' [= <-]. split.
      * destruct (state x); eauto.
        rewrite list_lookup_alter_eq, Hx. eauto.
      * exists g, y. split_and!; try done. by apply lookup_app_l_Some.
  - rewrite play_new_context, finish_state by done.
    set (D := {| context := length cs; kind := Destination |}).
    set (G := {| context := length cs; kind := Gain 0.5 None |}).
    assert (HD : (ns ++ [D; G]) !! length ns = Some D)
      by by apply list_lookup_middle.
    assert (HG : (ns ++ [D; G]) !! (1 + length ns) = Some G).
    { rewrite (lookup_new ns [D; G] 1). done. }
    pose proof (quiet_all_gain e _ _ G _ _ HG eq_refl) as Hq.
    assert (Hlen : length (quiet_all e (ns ++ [D; G])) = 2 + length ns).
    { rewrite length_quiet_all, length_app. simpl. lia. }
    unfold coherent, St.
    cbn [state_of this world nodes connections contexts].
    rewrite holding_context, holding_masterGain.
    split_and!.
    + intros ed [[Hin|Hin]%elem_of_app|Hin]%elem_of_app.
      * by apply joined_app, joined_quiet_all, joined_app, Hedges.
      * apply list_elem_of_singleton in Hin as ->.
        apply joined_app, joined_quiet_all.
        exists G, D. by split_and!.
      * apply (built_joined _ _ _ _ _ _ _ (1 + length ns) G); try done.
        by rewrite Hlen.
    + intros g' [= <-]. exists G, 0.5%Q, None. split; [|done].
      by apply lookup_app_l_Some.
    + intros c' [= <-]. split.
      * rewrite list_lookup_middle; eauto.
      * exists (1 + length ns), G. split_and!; try done.
        by apply lookup_app_l_Some.
Qed.

Lemma coherent_stop s : coherent s → coherent (state_of (stop s)).
Proof.
  intros (Hedges & Hgain & Hctx). rewrite (state_parts s), stop_eval.
  destruct s as [e [cs ns es rc dr]]. unfold coherent, St.
  cbn [state_of this world nodes connections contexts] in *.
  split_and!.
  - intros ed Hin. by apply joined_quiet_all, Hedges.
  - intros g Hg. destruct (Hgain g) as (x & v & tg & Hx & Hk);
      [by destruct e|].
    exists x, v, tg. split; [|done]. by eapply quiet_all_gain.
  - intros c Hc. destruct (Hctx c) as (Hcs & g & x & Hg & Hx & Hcx);
      [by destruct e|].
    split; [done|]. destruct (Hgain g Hg) as (x' & v & tg & Hx' & Hk).
    assert (x' = x) by congruence. subst x'.
    exists g, x. split_and!; [by destruct e| |done].
    by eapply quiet_all_gain.
Qed.

Lemma coherent_destroy s : coherent s → coherent (state_of (destroy s)).
Proof.
  intros (Hedges & Hgain & Hctx). rewrite (state_parts s), destroy_eval.
  destruct s as [e [cs ns es rc dr]]. unfold coherent, St.
  cbn [state_of this world nodes connections contexts] in *.
  split_and!.
  - intros ed Hin. by apply joined_quiet_all, Hedges.
  - intros g Hg. destruct (Hgain g) as (x & v & tg & Hx & Hk);
      [by destruct e|].
    exists x, v, tg. split; [|done]. by eapply quiet_all_gain.
  - intros c Hc. by destruct e.
Qed.

Lemma coherent_setVolume s v now :
  coherent s → coherent (state_of (setVolume v now s)).
Proof.
  intros Hs. rewrite (state_parts s), setVolume_eval.
  destruct s as [e [cs ns es rc dr]]. unfold St.
  cbn [this world contexts nodes connections randomCalls deviceRate].
  destruct (masterGain e) as [g|] eqn:Hg; [|exact Hs].
  destruct (ctx e) as [c|] eqn:Hc; [|exact Hs].
  destruct (float32 v); [|exact Hs].
  destruct Hs as (Hedges & Hgain & Hctx). unfold coherent in *.
  cbn [state_of this world nodes connections contexts] in *.
  set (f := λ x, {| context := context x;
                    kind := gain_target v now 0.1 (kind x) |}).
  assert (Hmove : ∀ i x, ns !! i = Some x →
    ∃ x', alter f g ns !! i = Some x' ∧ context x' = context x).
  { intros i x Hx. destruct (decide (g = i)) as [->|Hne].
    - rewrite list_lookup_alter_eq, Hx. eauto.
    - rewrite list_lookup_alter_ne by done. eauto. }
  split_and!.
  - intros ed Hin. eapply joined_moved; eauto.
  - intros g' Hg'. rewrite Hg in Hg'. injection Hg' as <-.
    destruct (Hgain g Hg) as (x & v0 & tg & Hx & Hk).
    exists (f x), v0, (Some (v, now, 0.1%Q)).
    rewrite list_lookup_alter_eq, Hx. split; [done|].
    unfold f. simpl. by rewrite Hk.
  - intros c' Hc'. destruct (Hctx c' Hc') as (Hcs & g' & x & Hg' & Hx & Hcx).
    split; [done|]. rewrite Hg in Hg'. injection Hg' as <-.
    exists g, (f x). split_and!; [done| |done].
    by rewrite list_lookup_alter_eq, Hx.
Qed.

Lemma coherent_new rate : coherent (new_engine rate).
Proof.
  unfold coherent. cbn. split_and!; [|done..]. by intros e ?%elem_of_nil.
Qed.

Lemma reachable_coherent s : reachable s → coherent s.
Proof.
  induction 1; auto using coherent_new, coherent_play, coherent_setVolume,
    coherent_stop, coherent_destroy.
Qed.

(** In every state the engine reaches, every connection joins two existing
    nodes of one and the same rendering context (the engine never connects
    across contexts, not even after [destroy] and a new [play]), the master
    gain is a gain node, and the context the engine holds is the context of
    its master gain. *)
Theorem engine_graph_coherent s : reachable s → coherent s.
Proof.
  induction 1 as [rate|s config now _ IH|s val now _ IH|s _ IH|s _ IH].
  - apply coherent_new.
  - by apply coherent_play.
  - by apply coherent_setVolume.
  - by apply coherent_stop.
  - by apply coherent_destroy.
Qed.

Lemma engine_graph_coherent_witness :
  let config := {| binauralFreq := 6; baseFreq := 180; isochronic := true;
                   theme := "ocean" |} in
  let s := state_of (play config 9
             (state_of (destroy
               (state_of (play config 0 (new_engine 44100)))))) in
  reachable s ∧ coherent s.
Proof.
  intros config s.
  assert (Hs : reachable s).
  { apply reach_play, reach_destroy, reach_play, reach_new. }
  split; [exact Hs|]. exact (engine_graph_coherent s Hs).
Defined.

Lemma held_playing config c g n :
  held (playing config c g n)
  = [n; 6 + n; 7 + n] ++ (if isochronic config then [9 + n; 10 + n] else []).
Proof. unfold held, playing. by destruct (isochronic config). Qed.

(** From every state the engine reaches, [play] with a configuration
    whose frequencies the setters accept returns, marks the engine as
    playing, and the sources it then holds (three, or five with the
    isochronic tone) are distinct nodes created by this call, each of them
    started at the one instant [t] read from the clock of the context. *)
Theorem play_starts_layers_together s config t :
  reachable s → playable config = true →
  ∃ s', play config t s = Return tt s' ∧
    isPlaying (this s') = true ∧
    length (held (this s')) = (if isochronic config then 5 else 3) ∧
    NoDup (held (this s')) ∧
    ∀ n, n ∈ held (this s') →
      length (nodes (world s)) ≤ n ∧
      ∃ x, nodes (world s') !! n = Some x ∧
           playback (kind x) = Some (started t).
Proof.
  intros Hs%reachable_ready Hp.
  destruct (play_shape s config t Hs)
    as (c & g & cs & ns & es & rate & rc & -> & Hg & _ & Hlen & _).
  rewrite (play_whole config Hp).
  cbn [finish holding built_nodes built_edges].
  eexists. split; [reflexivity|]. unfold St.
  cbn [this world nodes]. rewrite held_playing.
  split_and!.
  - done.
  - by destruct (isochronic config).
  - destruct (isochronic config); cbn [app];
      repeat (apply NoDup_cons; split;
              [rewrite ?elem_of_cons, elem_of_nil; lia|]);
      apply NoDup_nil_2.
  - intros n Hn. split.
    + destruct (isochronic config); cbn [app] in Hn;
        rewrite ?elem_of_cons, elem_of_nil in Hn; lia.
    + unfold layer_nodes, ambient_nodes, binaural_nodes, isochronic_nodes.
      destruct (isochronic config); cbn [app] in *;
        rewrite ?elem_of_cons, elem_of_nil in Hn;
        destruct_or!; try done; subst n.
        all: first [rewrite lookup_new | rewrite list_lookup_middle by done];
          eexists; (split; [reflexivity|reflexivity]).
Qed.

Lemma play_starts_layers_together_witness :
  let config := {| binauralFreq := 4; baseFreq := 200; isochronic := false;
                   theme := "sage" |} in
  let s := state_of (play config 0 (new_engine 48000)) in
  (reachable s ∧ playable config = true) ∧
  ∃ s', play config 7 s = Return tt s' ∧
    isPlaying (this s') = true ∧
    length (held (this s')) = (if isochronic config then 5 else 3) ∧
    NoDup (held (this s')) ∧
    ∀ n, n ∈ held (this s') →
      length (nodes (world s)) ≤ n ∧
      ∃ x, nodes (world s') !! n = Some x ∧
           playback (kind x) = Some (started 7).
Proof.
  intros config s.
  assert (Hs : reachable s) by apply reach_play, reach_new.
  assert (Hp : playable config = true) by reflexivity.
  split; [by split|]. exact (play_starts_layers_together s config 7 Hs Hp).
Defined.

(** A [play] on an engine that holds a context (a second [play], with no
    [destroy] in between) creates no new context and no new master gain,
    whatever the configuration and whether it returns or throws: the engine
    keeps both, the master gain node is left as it is, with its volume and
    the volume target set before, and the connections made before all
    stay.  It returns when the setters accept the frequencies of the
    configuration, and then nine nodes have been added, or thirteen with
    the isochronic tone. *)
Theorem replay_keeps_context_and_volume s config t c :
  reachable s → ctx (this s) = Some c →
  ∃ s' g, s' = state_of (play config t s) ∧
    returns (play config t s) = playable config ∧
    ctx (this s') = Some c ∧
    masterGain (this s) = Some g ∧ masterGain (this s') = Some g ∧
    length (contexts (world s')) = length (contexts (world s)) ∧
    nodes (world s') !! g = nodes (world s) !! g ∧
    (∃ ext, connections (world s') = connections (world s) ++ ext) ∧
    (playable config = true →
     play config t s = Return tt s' ∧
     length (nodes (world s'))
     = length (nodes (world s)) + (if isochronic config then 13 else 9)).
Proof.
  intros (Hedges & Hgain & Hctx)%reachable_coherent Hc.
  rewrite (state_parts s).
  destruct s as [e [cs ns es rc dr]].
  cbn [this world contexts nodes connections randomCalls deviceRate] in *.
  destruct (Hctx c Hc) as ([x Hx] & g & y & Hg & Hy & Hcy).
  destruct (Hgain g Hg) as (y' & v & tg & Hy' & Hk).
  assert (y' = y) by congruence. subst y'.
  rewrite (play_same_context _ _ _ _ _ _ _ _ c x g) by done.
  eexists _, g. split; [reflexivity|].
  rewrite finish_returns, finish_state. unfold St.
  cbn [this world contexts nodes connections].
  rewrite holding_context, holding_masterGain.
  split_and!; try done.
  - destruct (state x); try done. by rewrite length_alter.
  - rewrite Hy. apply lookup_app_l_Some. by eapply quiet_all_gain.
  - eauto.
  - intros Hp. rewrite (play_whole config Hp). split; [done|].
    cbn [built_nodes]. rewrite length_app, length_quiet_all.
    unfold layer_nodes, isochronic_nodes.
    by destruct (isochronic config).
Qed.

Lemma replay_keeps_context_and_volume_witness :
  let config := {| binauralFreq := 4; baseFreq := 200; isochronic := true;
                   theme := "sage" |} in
  let s := state_of (setVolume 0.3 2
             (state_of (play config 0 (new_engine 48000)))) in
  (reachable s ∧ ctx (this s) = Some 0) ∧
  ∃ s' g, s' = state_of (play config 5 s) ∧
    returns (play config 5 s) = playable config ∧
    ctx (this s') = Some 0 ∧
    masterGain (this s) = Some g ∧ masterGain (this s') = Some g ∧
    length (contexts (world s')) = length (contexts (world s)) ∧
    nodes (world s') !! g = nodes (world s) !! g ∧
    (∃ ext, connections (world s') = connections (world s) ++ ext) ∧
    (playable config = true →
     play config 5 s = Return tt s' ∧
     length (nodes (world s'))
     = length (nodes (world s)) + (if isochronic config then 13 else 9)).
Proof.
  intros config s.
  assert (Hs : reachable s) by apply reach_setVolume, reach_play, reach_new.
  assert (Hc : ctx (this s) = Some 0) by reflexivity.
  split; [by split|].
  exact (replay_keeps_context_and_volume s config 5 0 Hs Hc).
Defined.

(** On an engine that holds a context, in any state it reaches,
    [setVolume val] sets on the master gain the target [val], from the
    current time [now], with time constant 0.1, and returns; the value of
    the gain itself is not assigned, no other node changes, and the engine,
    the contexts and the connections stay as they are.  The one exception
    is a [val] that is no [float]: [setTargetAtTime] throws a [TypeError]
    and nothing changes. *)
Theorem setVolume_retargets_master_gain s val now c :
  reachable s → ctx (this s) = Some c →
  ∃ g v tg,
    masterGain (this s) = Some g ∧
    node_kind g s = Some (Gain v tg) ∧
    returns (setVolume val now s) = float32 val ∧
    (float32 val = false → setVolume val now s = Throw TypeError s) ∧
    (float32 val = true →
     ∃ s', setVolume val now s = Return tt s' ∧
       node_kind g s' = Some (Gain v (Some (val, now, 0.1%Q))) ∧
       (∀ i, i ≠ g → nodes (world s') !! i = nodes (world s) !! i) ∧
       this s' = this s ∧
       contexts (world s') = contexts (world s) ∧
       connections (world s') = connections (world s)).
Proof.
  intros (Hedges & Hgain & Hctx)%reachable_coherent Hc.
  rewrite (state_parts s), setVolume_eval.
  destruct s as [e [cs ns es rc dr]].
  cbn [this world contexts nodes connections randomCalls deviceRate] in *.
  destruct (Hctx c Hc) as (_ & g & y & Hg & Hy & Hcy).
  destruct (Hgain g Hg) as (y' & v & tg & Hy' & Hk).
  assert (y' = y) by congruence. subst y'.
  rewrite Hg, Hc. exists g, v, tg.
  split; [exact Hg|].
  split; [unfold node_kind, St; cbn [world nodes]; by rewrite Hy, <- Hk|].
  destruct (float32 val); (split; [reflexivity|]); split; try done.
  intros _. eexists. split; [reflexivity|].
  unfold node_kind, St. cbn [this world contexts nodes connections].
  split_and!; try done.
  - rewrite list_lookup_alter_eq, Hy. simpl. by rewrite Hk.
  - intros i Hi. by rewrite list_lookup_alter_ne.
Qed.

Lemma setVolume_retargets_master_gain_witness :
  let config := {| binauralFreq := 4; baseFreq := 200; isochronic := true;
                   theme := "sage" |} in
  let s := state_of (play config 0 (new_engine 48000)) in
  reachable s ∧ ctx (this s) = Some 0 ∧
  ∃ s' g v tg, setVolume 0.3 2 s = Return tt s' ∧
    masterGain (this s) = Some g ∧
    node_kind g s = Some (Gain v tg) ∧
    node_kind g s' = Some (Gain v (Some (0.3%Q, 2%Q, 0.1%Q))) ∧
    (∀ i, i ≠ g → nodes (world s') !! i = nodes (world s) !! i) ∧
    this s' = this s ∧
    contexts (world s') = contexts (world s) ∧
    connections (world s') = connections (world s).
Proof.
  intros config s.
  assert (Hs : reachable s) by apply reach_play, reach_new.
  assert (Hc : ctx (this s) = Some 0) by reflexivity.
  split; [exact Hs|]. split; [exact Hc|].
  destruct (setVolume_retargets_master_gain s 0.3 2 0 Hs Hc)
    as (g & v & tg & Hg & Hk & _ & _ & Hset).
  destruct (Hset eq_refl) as (s' & Hv & Hk' & Hrest).
  exists s', g, v, tg.
  split; [exact Hv|]. split; [exact Hg|]. split; [exact Hk|].
  split; [exact Hk'|]. exact Hrest.
Defined.

(** [destroy] drops the context but keeps the master gain: on an engine
    that has a master gain (one that has played), [setVolume] after
    [destroy] throws a [TypeError] (the read of [currentTime] on the null
    context) and changes nothing; it works again after the next [play],
    which makes a new master gain before it assigns any frequency, whether
    that [play] returns or throws: it returns then for every [val] that is
    a [float]. *)
Theorem setVolume_after_destroy_throws s g val now config t :
  reachable s → masterGain (this s) = Some g →
  ∃ s1, destroy s = Return tt s1 ∧
    masterGain (this s1) = Some g ∧
    setVolume val now s1 = Throw TypeError s1 ∧
    returns (play config t s1) = playable config ∧
    ∃ s2 g', s2 = state_of (play config t s1) ∧
      masterGain (this s2) = Some g' ∧ g' ≠ g ∧
      node_kind g' s2 = Some (Gain 0.5 None) ∧
      returns (setVolume val now s2) = float32 val.
Proof.
  intros (_ & Hgain & _)%reachable_ready Hg.
  apply Hgain in Hg as Hlt. revert Hg Hlt. clear Hgain.
  rewrite (state_parts s), destroy_eval.
  destruct s as [e [cs ns es rc dr]].
  cbn [this world contexts nodes connections randomCalls deviceRate] in *.
  intros Hg Hlt.
  eexists. split; [reflexivity|].
  split; [by destruct e|]. split.
  { rewrite setVolume_eval. destruct e; simpl in *. by subst. }
  rewrite play_new_context by (by destruct e).
  split; [apply finish_returns|].
  eexists _, _. split; [reflexivity|]. rewrite finish_state.
  split; [unfold St; cbn [this]; apply holding_masterGain|]. split_and!.
  - rewrite length_quiet_all. unfold St in Hlt. cbn in Hlt. lia.
  - unfold node_kind, St. cbn [world nodes].
    erewrite lookup_app_l_Some;
      [|eapply quiet_all_gain;
        [by rewrite (lookup_new _ _ 1)|reflexivity]].
    reflexivity.
  - rewrite setVolume_eval, holding_masterGain, holding_context.
    by destruct (float32 val).
Qed.

Lemma setVolume_after_destroy_throws_witness :
  let config := {| binauralFreq := 4; baseFreq := 200; isochronic := true;
                   theme := "sage" |} in
  let s := state_of (play config 0 (new_engine 48000)) in
  (reachable s ∧ masterGain (this s) = Some 1) ∧
  ∃ s1, destroy s = Return tt s1 ∧
    masterGain (this s1) = Some 1 ∧
    setVolume 0.3 2 s1 = Throw TypeError s1 ∧
    returns (play config 3 s1) = playable config ∧
    ∃ s2 g', s2 = state_of (play config 3 s1) ∧
      masterGain (this s2) = Some g' ∧ g' ≠ 1 ∧
      node_kind g' s2 = Some (Gain 0.5 None) ∧
      returns (setVolume 0.3 2 s2) = true.
Proof.
  intros config s.
  assert (Hs : reachable s) by apply reach_play, reach_new.
  assert (Hg : masterGain (this s) = Some 1) by reflexivity.
  split; [by split|].
  exact (setVolume_after_destroy_throws s 1 0.3 2 config 3 Hs Hg).
Defined.

(** [destroy] on an engine that holds a context closes that context and no
    other, leaves no source held and none of the sources held before
    running, and drops the context, so that a second [destroy] returns and
    changes nothing: a context is closed once. *)
Theorem destroy_closes_context_once s c x :
  ctx (this s) = Some c → contexts (world s) !! c = Some x →
  ∃ s1, destroy s = Return tt s1 ∧
    contexts (world s1) !! c = Some (set_state closed x) ∧
    (∀ c', c' ≠ c → contexts (world s1) !! c' = contexts (world s) !! c') ∧
    held (this s1) = [] ∧
    (∀ n, n ∈ held (this s) → running_at (nodes (world s1)) n = false) ∧
    destroy s1 = Return tt s1.
Proof.
  intros Hc Hx. rewrite (state_parts s), destroy_eval.
  destruct s as [e [cs ns es rc dr]].
  cbn [this world contexts nodes connections randomCalls deviceRate] in *.
  rewrite Hc. eexists. split; [reflexivity|]. unfold St.
  cbn [this world contexts nodes].
  split_and!.
  - by rewrite list_lookup_alter_eq, Hx.
  - intros c' Hne. by rewrite list_lookup_alter_ne.
  - by destruct e.
  - intros n Hn. by apply quiet_all_held.
  - fold (St (set_ctx None (released e)) (alter (set_state closed) c cs)
            (quiet_all e ns) es rc dr).
    rewrite destroy_eval. by destruct e.
Qed.

Lemma destroy_closes_context_once_witness :
  let config := {| binauralFreq := 4; baseFreq := 200; isochronic := true;
                   theme := "sage" |} in
  let s := state_of (play config 0 (new_engine 48000)) in
  let x := {| state := running; sampleRate := 48000; destination := 0 |} in
  ctx (this s) = Some 0 ∧ contexts (world s) !! 0 = Some x ∧
  ∃ s1, destroy s = Return tt s1 ∧
    contexts (world s1) !! 0 = Some (set_state closed x) ∧
    (∀ c', c' ≠ 0 → contexts (world s1) !! c' = contexts (world s) !! c') ∧
    held (this s1) = [] ∧
    (∀ n, n ∈ held (this s) → running_at (nodes (world s1)) n = false) ∧
    destroy s1 = Return tt s1.
Proof.
  intros config s x.
  assert (Hc : ctx (this s) = Some 0) by reflexivity.
  assert (Hx : contexts (world s) !! 0 = Some x) by reflexivity.
  split; [exact Hc|]. split; [exact Hx|].
  exact (destroy_closes_context_once s 0 x Hc Hx).
Defined.

(** The way the session starts the music, [await lyria.play(config)] then
    [lyria.setVolume(musicVol)], from every state the engine reaches.  With
    a configuration whose frequencies the setters accept and a volume that
    is a [float], the two calls return, and they leave the engine playing
    with the target of its master gain at [musicVol]; on an engine that
    held no context the gain value itself is the default 0.5.  Otherwise
    the sequence throws a [TypeError] and leaves the engine as [play] left
    it: [play] throws, the promise it returns is rejected and [setVolume]
    is not reached, or [play] returns and [setVolume] throws. *)
Theorem start_music_sets_volume s config t musicVol t' :
  reachable s →
  (playable config = true → float32 musicVol = true →
   ∃ s' g v, start_music config t musicVol t' s = Return tt s' ∧
     isPlaying (this s') = true ∧
     masterGain (this s') = Some g ∧
     node_kind g s' = Some (Gain v (Some (musicVol, t', 0.1%Q))) ∧
     (ctx (this s) = None → v = 0.5%Q)) ∧
  (playable config && float32 musicVol = false →
   start_music config t musicVol t' s
   = Throw TypeError (state_of (play config t s))).
Proof.
  intros Hs. split.
  2:{ intros Hpv. apply reachable_ready in Hs.
      destruct (play_shape s config t Hs)
        as (c & g & cs & ns & es & rate & rc & Hplay & _).
      unfold start_music. rewrite Hplay, finish_state.
      destruct (reach config) eqn:Hr.
      4:{ apply reach_playable in Hr. rewrite Hr in Hpv. simpl in Hpv.
          eapply bind_step; [exact Hplay|].
          rewrite setVolume_eval, holding_masterGain, holding_context.
          by rewrite Hpv. }
      all: apply bind_throw; exact Hplay. }
  intros Hp Hv. apply reachable_coherent in Hs as (Hedges & Hgain & Hctx).
  rewrite (state_parts s).
  destruct s as [e [cs ns es rc dr]].
  cbn [this world contexts nodes connections randomCalls deviceRate] in *.
  unfold start_music.
  destruct (ctx e) as [c|] eqn:Hc.
  - destruct (Hctx c eq_refl) as ([x Hx] & g & y & Hg & Hy & Hcy).
    destruct (Hgain g Hg) as (y' & v & tg & Hy' & Hk).
    assert (y' = y) by congruence. subst y'.
    pose proof (quiet_all_gain e ns g y v tg Hy Hk) as Hq.
    exists
      (St (playing config c g (length ns))
          (match state x with
           | suspended => alter (set_state running) c cs
           | _ => cs
           end)
          (alter (λ x, {| context := context x;
                          kind := gain_target musicVol t' 0.1 (kind x) |}) g
             (quiet_all e ns ++ layer_nodes config c (sampleRate x) rc t))
          (es ++ layer_edges config (length ns) g)
          (rc + 2 * (sampleRate x * 5))%N dr), g, v.
    split_and!; try done.
    + eapply bind_step.
      { rewrite (play_same_context _ _ _ _ _ _ _ _ c x g) by done.
        by rewrite (play_whole config Hp). }
      rewrite setVolume_eval. cbn [playing masterGain ctx]. by rewrite Hv.
    + unfold node_kind, St. cbn [world nodes].
      rewrite list_lookup_alter_eq, (lookup_app_l_Some _ _ _ _ Hq).
      simpl. by rewrite Hk.
    + unfold St. simpl. congruence.
  - set (D := {| context := length cs; kind := Destination |}).
    set (G := {| context := length cs; kind := Gain 0.5 None |}).
    assert (HG : (ns ++ [D; G]) !! (1 + length ns) = Some G).
    { by rewrite (lookup_new ns [D; G] 1). }
    pose proof (quiet_all_gain e _ _ G _ _ HG eq_refl) as Hq.
    eexists _, (1 + length ns), 0.5%Q.
    split.
    { eapply bind_step.
      { rewrite play_new_context by done.
        by rewrite (play_whole config Hp). }
      rewrite setVolume_eval. cbn [holding playing masterGain ctx].
      by rewrite Hv. }
    split_and!; try done.
    unfold node_kind, St. cbn [world nodes]. fold D G.
    by rewrite list_lookup_alter_eq, (lookup_app_l_Some _ _ _ _ Hq).
Qed.

Lemma start_music_sets_volume_witness :
  let config := {| binauralFreq := 4; baseFreq := 200; isochronic := true;
                   theme := "sage" |} in
  let s := new_engine 48000 in
  (reachable s ∧ playable config = true) ∧
  ∃ s' g v, start_music config 0 0.3 0 s = Return tt s' ∧
    isPlaying (this s') = true ∧
    masterGain (this s') = Some g ∧
    node_kind g s' = Some (Gain v (Some (0.3%Q, 0%Q, 0.1%Q))) ∧
    (ctx (this s) = None → v = 0.5%Q).
Proof.
  intros config s.
  assert (Hs : reachable s) by apply reach_new.
  assert (Hp : playable config = true) by reflexivity.
  split; [by split|].
  exact (proj1 (start_music_sets_volume s config 0 0.3 0 Hs) Hp eq_refl).
Defined.

End EngineMore.

(* ===================================================================== *)
(** ** Properties of the intake form                                     *)
(* ===================================================================== *)

Module IntakeFacts.
Import PlanText IntakeForm.

Lemma trim_start_empty s : trim_start s = [] ↔ blank s.
Proof.
  unfold blank. induction s as [|c s IH]; simpl.
  - split; [constructor|done].
  - destruct (white_space c) eqn:Hc.
    + rewrite IH. split; [by constructor|by inversion 1].
    + split; [done|]. inversion 1. congruence.
Qed.

Lemma trim_end_empty s : trim_end s = [] ↔ blank s.
Proof.
  unfold trim_end.
  rewrite <- (reverse_involutive []) at 1.
  split.
  - intros H%(inj reverse). apply trim_start_empty in H.
    unfold blank in *. by rewrite Forall_reverse in H.
  - intros H. f_equal. apply trim_start_empty.
    unfold blank in *. by rewrite Forall_reverse.
Qed.

Lemma trim_start_head s c r : trim_start s = c :: r → white_space c = false.
Proof.
  induction s as [|a s IH]; simpl; [done|].
  destruct (white_space a) eqn:Ha; [done|]. congruence.
Qed.

Lemma trim_empty s : trim s = [] ↔ blank s.
Proof.
  unfold trim. rewrite trim_end_empty. split.
  - intros H. apply trim_start_empty.
    destruct (trim_start s) as [|c r] eqn:E; [done|].
    apply trim_start_head in E. inversion H. congruence.
  - intros H. apply trim_start_empty in H. rewrite H. constructor.
Qed.

(** Submitting the intake form. An issue made of white space only (or
    empty) is ignored: the plan service is not called and the state stays as
    it is. Any other issue is passed to the plan service once, as typed, not
    trimmed; whatever the outcome, [loading] is off at the end; a plan that
    arrives is kept, and a failure shows one alert and leaves the plan as it
    was. *)
Theorem blank_issue_is_not_submitted {SessionPlan : Type}
    (generateSessionPlan : list CodeUnit → option SessionPlan)
    (st : IntakeState SessionPlan) :
  (blank (issue st) → handleSubmit generateSessionPlan st = (st, [])) ∧
  (¬ blank (issue st) →
   ∃ st' effects,
     handleSubmit generateSessionPlan st = (st', effects) ∧
     loading st' = false ∧ issue st' = issue st ∧
     selectedTheme st' = selectedTheme st ∧
     match generateSessionPlan (issue st) with
     | Some p => plan st' = Some p ∧ effects = [generate (issue st)]
     | None =>
         plan st' = plan st ∧
         ∃ message, effects = [generate (issue st); alert message]
     end).
Proof.
  unfold handleSubmit. split.
  - intros H%trim_empty. by rewrite H.
  - intros H. destruct (trim (issue st)) as [|c r] eqn:E.
    { by apply trim_empty in E. }
    destruct (generateSessionPlan (issue st)) as [p|];
      eexists _, _; (split; [reflexivity|]); simpl; split_and!; eauto.
Qed.

End IntakeFacts.
